(** * solana-validator-snapshot-keeper: a shallow embedding

    The development follows the packages of the repository:
    [pruner] (local inventory and pruning), [keeper] (freshness assessment),
    [discovery] (single-node probe and result ordering), [downloader]
    (chunk ranges, single-stream and parallel download, atomic finalize)
    and [hooks] (post-run hook execution).

    Conventions.
    - Go's [uint64], [int64] and [int] values are integers of [Z]; wrap-around
      is written out where the source computes with them.
    - A directory is the listing [os.ReadDir] returns for it.
    - Go's [sort.Slice] is a library routine; it is taken through its
      documented contract (a sorted permutation, stability not promised). *)

From Stdlib Require Import ZArith Ascii String.
From stdpp Require Import base tactics option list list_numbers sorting
  strings gmap sets.

Local Open Scope Z_scope.
#[local] Set Warnings "-clear-no-such-hyp".

(** ** Go primitives used by the sources *)

Module golang.

Definition maxUint64 : Z := 2 ^ 64 - 1.
Definition maxInt64 : Z := 2 ^ 63 - 1.

(** Conversion [uint64(x)] of a signed integer and unsigned subtraction. *)
Definition to_uint64 (x : Z) : Z := x mod 2 ^ 64.
Definition sub_uint64 (a b : Z) : Z := (a - b) mod 2 ^ 64.

(** Signed 64-bit wrap-around (two's complement). *)
Definition wrap_int64 (x : Z) : Z := (x + 2 ^ 63) mod 2 ^ 64 - 2 ^ 63.
Definition mul_int64 (a b : Z) : Z := wrap_int64 (a * b).
Definition add_int64 (a b : Z) : Z := wrap_int64 (a + b).
Definition sub_int64 (a b : Z) : Z := wrap_int64 (a - b).
(** Go's [/] on integers truncates toward zero. *)
Definition div_int64 (a b : Z) : Z := wrap_int64 (Z.quot a b).

Definition chars (s : string) : list ascii := list_ascii_of_string s.

Definition isDigit (c : ascii) : bool :=
  let n := nat_of_ascii c in (48 <=? n)%nat && (n <=? 57)%nat.
Definition isUpper (c : ascii) : bool :=
  let n := nat_of_ascii c in (65 <=? n)%nat && (n <=? 90)%nat.
Definition isLower (c : ascii) : bool :=
  let n := nat_of_ascii c in (97 <=? n)%nat && (n <=? 122)%nat.
(** The character class [[A-Za-z0-9]]. *)
Definition isAlnum (c : ascii) : bool := isUpper c || isLower c || isDigit c.

(** [strconv.ParseUint(s, 10, 64)], value only: the sources discard the
    error ([slot, _ := ...]).  On a range error the library returns the
    largest [uint64]; on a syntax error it returns 0. *)
Definition cutoff : Z := Z.quot maxUint64 10 + 1.

Fixpoint parseUintLoop (n : Z) (s : list ascii) : Z :=
  match s with
  | [] => n
  | c :: rest =>
      if negb (isDigit c) then 0
      else if cutoff <=? n then maxUint64
      else
        let n1 := n * 10 + (Z.of_nat (nat_of_ascii c) - 48) in
        if maxUint64 <? n1 then maxUint64 else parseUintLoop n1 rest
  end.

Definition ParseUint (s : list ascii) : Z :=
  match s with
  | [] => 0
  | _ => parseUintLoop 0 s
  end.

(** Pieces of the regular-expression matchers.  [span p l] is the longest
    prefix of [l] whose characters satisfy [p], and the rest. *)
Fixpoint span (p : ascii → bool) (l : list ascii) : list ascii * list ascii :=
  match l with
  | c :: rest =>
      if p c then let '(a, b) := span p rest in (c :: a, b) else ([], l)
  | [] => ([], [])
  end.

Fixpoint stripPrefix (p l : list ascii) : option (list ascii) :=
  match p, l with
  | [], _ => Some l
  | a :: p', b :: l' => if decide (a = b) then stripPrefix p' l' else None
  | _ :: _, [] => None
  end.

(** One or more characters of a class that are followed by a character
    outside the class: the run is the longest one. *)
Definition plus (p : ascii → bool) (l : list ascii)
    : option (list ascii * list ascii) :=
  match span p l with
  | ([], _) => None
  | r => Some r
  end.

(** The alternation [(zst|bz2|gz)]. *)
Definition stripExt (l : list ascii) : option (list ascii) :=
  match stripPrefix (chars "zst") l with
  | Some r => Some r
  | None =>
      match stripPrefix (chars "bz2") l with
      | Some r => Some r
      | None => stripPrefix (chars "gz") l
      end
  end.

(** [snapshot-(\d+)-[A-Za-z0-9]+\.tar\.(zst|bz2|gz)] matched at the head
    of [l]: the first capture group and what follows the match. *)
Definition fullAt (l : list ascii) : option (list ascii * list ascii) :=
  r1 ← stripPrefix (chars "snapshot-") l;
  '(slot, r2) ← plus isDigit r1;
  r3 ← stripPrefix (chars "-") r2;
  '(_, r4) ← plus isAlnum r3;
  r5 ← stripPrefix (chars ".tar.") r4;
  r6 ← stripExt r5;
  Some (slot, r6).

(** [incremental-snapshot-(\d+)-(\d+)-[A-Za-z0-9]+\.tar\.(zst|bz2|gz)]
    matched at the head of [l]: both capture groups and the rest. *)
Definition incrementalAt (l : list ascii)
    : option (list ascii * list ascii * list ascii) :=
  r1 ← stripPrefix (chars "incremental-snapshot-") l;
  '(base, r2) ← plus isDigit r1;
  r3 ← stripPrefix (chars "-") r2;
  '(slot, r4) ← plus isDigit r3;
  r5 ← stripPrefix (chars "-") r4;
  '(_, r6) ← plus isAlnum r5;
  r7 ← stripPrefix (chars ".tar.") r6;
  r8 ← stripExt r7;
  Some (base, slot, r8).

(** Leftmost match of an unanchored pattern: try every start position. *)
Fixpoint findFirst {A} (at_ : list ascii → option A) (l : list ascii)
    : option A :=
  match at_ l with
  | Some r => Some r
  | None =>
      match l with
      | [] => None
      | _ :: rest => findFirst at_ rest
      end
  end.

(** [strings.Split(s, sep)] followed by taking the last part, for a
    one-character separator: the text after the last separator. *)
Fixpoint lastSegmentFrom (sep : ascii) (cur : list ascii) (l : list ascii)
    : list ascii :=
  match l with
  | [] => reverse cur
  | c :: rest =>
      if decide (c = sep) then lastSegmentFrom sep [] rest
      else lastSegmentFrom sep (c :: cur) rest
  end.

Definition lastSegment (sep : ascii) (s : string) : string :=
  string_of_list_ascii (lastSegmentFrom sep [] (chars s)).

(** *** The contract of [sort.Slice]

    [less] has to be a strict weak ordering; the result is then a
    permutation of the input in which no element is [less] than an earlier
    one.  The order among elements that compare equal is not promised. *)
Record StrictWeak {A} (less : A → A → bool) : Prop := {
  sw_irrefl : ∀ a, less a a = false;
  sw_trans : ∀ a b c, less a b = true → less b c = true → less a c = true;
  sw_incomp : ∀ a b c, less b a = false → less c b = false → less c a = false
}.

Definition notAfter {A} (less : A → A → bool) : relation A :=
  λ a b, less b a = false.

Class SliceSorter := {
  sort_Slice : ∀ {A}, (A → A → bool) → list A → list A;
  sort_Slice_perm : ∀ A (less : A → A → bool) l, sort_Slice less l ≡ₚ l;
  sort_Slice_sorted : ∀ A (less : A → A → bool) l,
    StrictWeak less → StronglySorted (notAfter less) (sort_Slice less l)
}.

End golang.

(** A sorter that meets the contract: stdpp's merge sort on the relation
    "not after".  It serves as the instance at which statements that are
    generic in the sorter are evaluated. *)
Module sorters.
Import golang.

Section merge.
Context {A : Type} (less : A → A → bool).

#[local] Instance notAfter_dec : RelDecision (notAfter less).
Proof. intros a b. unfold notAfter. apply _. Defined.

Definition mergeSort (l : list A) : list A := merge_sort (notAfter less) l.

Lemma notAfter_total : StrictWeak less → Total (notAfter less).
Proof.
  intros SW a b. unfold notAfter.
  destruct (less b a) eqn:Hba; [right|by left].
  destruct (less a b) eqn:Hab; [|done].
  by rewrite <- (sw_irrefl less SW a), <- (sw_trans less SW a b a Hab Hba).
Qed.

Lemma notAfter_transitive : StrictWeak less → Transitive (notAfter less).
Proof. intros SW a b c Hab Hbc. exact (sw_incomp less SW a b c Hab Hbc). Qed.

Lemma mergeSort_perm l : mergeSort l ≡ₚ l.
Proof. apply merge_sort_Permutation. Qed.

Lemma mergeSort_sorted l :
  StrictWeak less → StronglySorted (notAfter less) (mergeSort l).
Proof.
  intros SW. pose proof (notAfter_total SW). pose proof (notAfter_transitive SW).
  apply (StronglySorted_merge_sort (notAfter less)).
Qed.

End merge.

Definition mergeSorter : SliceSorter :=
  {| sort_Slice := @mergeSort;
     sort_Slice_perm := @mergeSort_perm;
     sort_Slice_sorted := @mergeSort_sorted |}.

(** Comparisons of an integer key are strict weak orderings. *)
Lemma StrictWeak_key_lt {A} (key : A → Z) : StrictWeak (λ a b, key a <? key b).
Proof. split; intros; rewrite ?Z.ltb_lt, ?Z.ltb_ge in *; lia. Qed.

Lemma StrictWeak_key_gt {A} (key : A → Z) : StrictWeak (λ a b, key a >? key b).
Proof. split; intros; rewrite ?Z.gtb_ltb, ?Z.ltb_lt, ?Z.ltb_ge in *; lia. Qed.

End sorters.

(** ** Package pruner *)

Module pruner.
Import golang.

(** [SnapshotFile]: a parsed snapshot file on disk.  [Path] is the entry's
    name inside the snapshot directory. *)
Record SnapshotFile := {
  Path : string;
  Slot : Z;
  BaseSlot : Z;
  IsFull : bool
}.

Global Instance SnapshotFile_eq_dec : EqDecision SnapshotFile.
Proof. solve_decision. Defined.

Record DirEntry := { Name : string; IsDir : bool }.

Global Instance DirEntry_eq_dec : EqDecision DirEntry.
Proof. solve_decision. Defined.

(** The snapshot directory: whether [os.ReadDir] succeeds on it, and its
    listing. *)
Record Dir := { readable : bool; entries : list DirEntry }.

Definition ReadDir (d : Dir) : option (list DirEntry) :=
  if readable d then Some (entries d) else None.

(** [os.Remove] of a name in the directory. *)
Definition Remove (name : string) (es : list DirEntry) : list DirEntry :=
  filter (λ e, Name e ≠ name) es.

(** The three patterns.  The first two are anchored at both ends. *)
Definition fullSnapshotRe (name : string) : option (list ascii) :=
  match fullAt (chars name) with
  | Some (slot, []) => Some slot
  | _ => None
  end.

Definition incrementalSnapshotRe (name : string)
    : option (list ascii * list ascii) :=
  match incrementalAt (chars name) with
  | Some (base, slot, []) => Some (base, slot)
  | _ => None
  end.

(** [\.(tmp|partial)$] *)
Definition tempFileRe (name : string) : bool :=
  bool_decide (chars ".tmp" `suffix_of` chars name)
  || bool_decide (chars ".partial" `suffix_of` chars name).

(** What the body of the scanning loop of [Prune] does with one entry. *)
Inductive Class :=
  | Skipped
  | Temp (path : string)
  | Full (f : SnapshotFile)
  | Incremental (f : SnapshotFile)
  | Unmatched.

Definition classify (e : DirEntry) : Class :=
  if IsDir e then Skipped
  else
    let name := Name e in
    if tempFileRe name then Temp name
    else
      match fullSnapshotRe name with
      | Some slot =>
          Full {| Path := name; Slot := ParseUint slot; BaseSlot := 0;
                  IsFull := true |}
      | None =>
          match incrementalSnapshotRe name with
          | Some (base, slot) =>
              Incremental {| Path := name; Slot := ParseUint slot;
                             BaseSlot := ParseUint base; IsFull := false |}
          | None => Unmatched
          end
      end.

Definition asTemp (e : DirEntry) : option string :=
  match classify e with Temp p => Some p | _ => None end.
Definition asFull (e : DirEntry) : option SnapshotFile :=
  match classify e with Full f => Some f | _ => None end.
Definition asIncremental (e : DirEntry) : option SnapshotFile :=
  match classify e with Incremental f => Some f | _ => None end.

(** The slices the loop appends to, in listing order. *)
Definition tempFiles (es : list DirEntry) : list string := omap asTemp es.
Definition fulls (es : list DirEntry) : list SnapshotFile := omap asFull es.
Definition incrementals (es : list DirEntry) : list SnapshotFile :=
  omap asIncremental es.

Definition removeAll (paths : list string) (es : list DirEntry)
    : list DirEntry :=
  foldl (λ acc p, Remove p acc) es paths.

(** The last loop of [Prune], with its [keptIncremental] flag. *)
Fixpoint pruneIncrementals (newestSlot : Z) (keptIncremental : bool)
    (incs : list SnapshotFile) (es : list DirEntry) : list DirEntry :=
  match incs with
  | [] => es
  | inc :: rest =>
      if negb (BaseSlot inc =? newestSlot) then
        pruneIncrementals newestSlot keptIncremental rest (Remove (Path inc) es)
      else if keptIncremental then
        pruneIncrementals newestSlot keptIncremental rest (Remove (Path inc) es)
      else pruneIncrementals newestSlot true rest es
  end.

Definition slotDescending (a b : SnapshotFile) : bool := Slot a >? Slot b.

Inductive PruneResult := PruneOk | PruneReadDirError.

Definition Prune `{SliceSorter} (d : Dir) : Dir * PruneResult :=
  match ReadDir d with
  | None => (d, PruneReadDirError)
  | Some es =>
      let es1 := removeAll (tempFiles es) es in
      match sort_Slice slotDescending (fulls es) with
      | [] => ({| readable := readable d; entries := es1 |}, PruneOk)
      | newestFull :: older =>
          let es2 := removeAll (Path <$> older) es1 in
          let sorted := sort_Slice slotDescending (incrementals es) in
          let es3 := pruneIncrementals (Slot newestFull) false sorted es2 in
          ({| readable := readable d; entries := es3 |}, PruneOk)
      end
  end.

(** [GetLocalSnapshots]: fulls and incrementals in listing order; temp
    files are not filtered out here, the anchored patterns exclude them. *)
Definition localSnapshot (e : DirEntry) : option SnapshotFile :=
  if IsDir e then None
  else
    let name := Name e in
    match fullSnapshotRe name with
    | Some slot =>
        Some {| Path := name; Slot := ParseUint slot; BaseSlot := 0;
                IsFull := true |}
    | None =>
        match incrementalSnapshotRe name with
        | Some (base, slot) =>
            Some {| Path := name; Slot := ParseUint slot;
                    BaseSlot := ParseUint base; IsFull := false |}
        | None => None
        end
    end.

Definition GetLocalSnapshots (d : Dir) : option (list SnapshotFile) :=
  match ReadDir d with
  | None => None
  | Some es => Some (omap localSnapshot es)
  end.

(** [NewestSlot]: the loop keeps the running maximum, starting at 0. *)
Definition NewestSlot (snapshots : list SnapshotFile) : Z :=
  foldl (λ newest s, if Slot s >? newest then Slot s else newest) 0 snapshots.

(** [NewestFullSnapshot]: the first full with the highest slot, or nil. *)
Definition NewestFullSnapshot (snapshots : list SnapshotFile)
    : option SnapshotFile :=
  foldl (λ newest s,
           if IsFull s
              && match newest with None => true | Some n => Slot s >? Slot n end
           then Some s else newest)
        None snapshots.

End pruner.


(** ** Package keeper: freshness assessment *)

Module keeper.
Import golang pruner.

Inductive downloadMode := modeSkip | modeIncremental | modeFull.

(** The part of the configuration [assessFreshness] reads:
    [cfg.Snapshots.Age.Local.MaxIncrementalSlots], a Go [int]. *)
Record Config := { MaxIncrementalSlots : Z }.

Inductive Error := ErrAssess.

(** [assessFreshness], reading the snapshot directory [dir]. *)
Definition assessFreshness (cfg : Config) (dir : Dir) (currentSlot : Z)
    : downloadMode * Z * option Error :=
  match GetLocalSnapshots dir with
  | None => (modeFull, 0, None)
  | Some snapshots =>
      if (length snapshots =? 0)%nat then (modeFull, 0, None)
      else
        let newestSlot := NewestSlot snapshots in
        let newestFull := NewestFullSnapshot snapshots in
        if newestSlot >=? currentSlot then (modeSkip, 0, None)
        else
          let age := sub_uint64 currentSlot newestSlot in
          let skipThreshold := to_uint64 (MaxIncrementalSlots cfg) in
          if age <=? skipThreshold then (modeSkip, 0, None)
          else
            match newestFull with
            | Some f => (modeIncremental, Slot f, None)
            | None => (modeFull, 0, None)
            end
  end.

End keeper.

(** ** Package discovery: the single-node probe and result ordering *)

Module discovery.
Import golang.

Inductive SnapshotType := SnapshotTypeFull | SnapshotTypeIncremental.

(** Durations ([time.Duration]) are nanosecond counts. *)
Record SnapshotNode := {
  RPCURL : string;
  SnapshotURL : string;
  Type_ : SnapshotType;
  Slot : Z;
  BaseSlot : Z;
  Filename : string;
  Latency : Z;
  SlotAge : Z
}.

Record Options := {
  MaxLatency : Z;
  MaxSnapshotAgeSlots : Z;
  ProbeConcurrency : Z;
  SortOrder : string;
  MinSuitable : Z
}.

Inductive rejectReason :=
  | rejectHTTPError
  | rejectLatency
  | rejectStatusCode
  | rejectParseFail
  | rejectTooOld.

(** The wrapped [err] of a [probeError]: which [fmt.Errorf] built it. *)
Inductive message :=
  | msgExecutingRequest
  | msgLatencyExceeds (latency max : Z)
  | msgRedirectNoLocation
  | msgUnexpectedStatus (code : Z)
  | msgNoIncrementalMatch (filename : string)
  | msgNoFullMatch (filename : string)
  | msgSlotAhead (slot current : Z)
  | msgSlotAgeExceeds (age max : Z).

Record probeError := {
  reason : rejectReason;
  err : message;
  statusCode : Z;
  slotAge : Z
}.

(** The HEAD exchange of one probe, as the network answers it:
    whether the request can be built, the response (or a transport
    error), and the time measured around the call. *)
Record Response := { StatusCode : Z; Location : string }.

Record Exchange := {
  newRequestFails : bool;
  doResult : option Response;
  elapsed : Z
}.

Inductive ProbeResult :=
  | Suitable (node : SnapshotNode)
  | Rejected (e : probeError)
  | CreatingRequestFailed.

(** The unanchored patterns of this package. *)
Definition fullSnapshotRe (filename : string) : option (list ascii) :=
  fst <$> findFirst fullAt (chars filename).

Definition incrementalSnapshotRe (filename : string)
    : option (list ascii * list ascii) :=
  fst <$> findFirst incrementalAt (chars filename).

Definition parseSnapshotFilename (filename : string)
    (snapshotType : SnapshotType) : message + SnapshotNode :=
  match snapshotType with
  | SnapshotTypeIncremental =>
      match incrementalSnapshotRe filename with
      | None => inl (msgNoIncrementalMatch filename)
      | Some (base, slot) =>
          inr {| RPCURL := ""; SnapshotURL := "";
                 Type_ := SnapshotTypeIncremental;
                 Slot := ParseUint slot; BaseSlot := ParseUint base;
                 Filename := ""; Latency := 0; SlotAge := 0 |}
      end
  | SnapshotTypeFull =>
      match fullSnapshotRe filename with
      | None => inl (msgNoFullMatch filename)
      | Some slot =>
          inr {| RPCURL := ""; SnapshotURL := "";
                 Type_ := SnapshotTypeFull;
                 Slot := ParseUint slot; BaseSlot := 0;
                 Filename := ""; Latency := 0; SlotAge := 0 |}
      end
  end.

(** The [switch resp.StatusCode] of [probeNode]: the file name the
    response designates, or the rejection. *)
Definition snapshotFilenameOf (resp : Response) (endpoint : string)
    : probeError + string :=
  let code := StatusCode resp in
  if (code =? 301) || (code =? 302) || (code =? 303) || (code =? 307) then
    if String.eqb (Location resp) "" then
      inl {| reason := rejectStatusCode; err := msgRedirectNoLocation;
             statusCode := code; slotAge := 0 |}
    else inr (lastSegment "/" (Location resp))
  else if code =? 200 then inr (lastSegment "/" endpoint)
  else
    inl {| reason := rejectStatusCode; err := msgUnexpectedStatus code;
           statusCode := code; slotAge := 0 |}.

Definition probeNode (x : Exchange) (addr endpoint : string) (currentSlot : Z)
    (snapshotType : SnapshotType) (opts : Options) : ProbeResult :=
  if newRequestFails x then CreatingRequestFailed
  else
    match doResult x with
    | None =>
        Rejected {| reason := rejectHTTPError; err := msgExecutingRequest;
                    statusCode := 0; slotAge := 0 |}
    | Some resp =>
        let latency := elapsed x in
        if latency >? MaxLatency opts then
          Rejected {| reason := rejectLatency;
                      err := msgLatencyExceeds latency (MaxLatency opts);
                      statusCode := 0; slotAge := 0 |}
        else
          match snapshotFilenameOf resp endpoint with
          | inl e => Rejected e
          | inr snapshotFilename =>
              match parseSnapshotFilename snapshotFilename snapshotType with
              | inl m =>
                  Rejected {| reason := rejectParseFail; err := m;
                              statusCode := 0; slotAge := 0 |}
              | inr node =>
                  if Slot node >? currentSlot then
                    Rejected {| reason := rejectTooOld;
                                err := msgSlotAhead (Slot node) currentSlot;
                                statusCode := 0; slotAge := 0 |}
                  else
                    let slotAge := sub_uint64 currentSlot (Slot node) in
                    if (MaxSnapshotAgeSlots opts >? 0)
                       && (slotAge >? to_uint64 (MaxSnapshotAgeSlots opts))
                    then
                      Rejected {| reason := rejectTooOld;
                                  err := msgSlotAgeExceeds slotAge
                                           (MaxSnapshotAgeSlots opts);
                                  statusCode := 0; slotAge := slotAge |}
                    else
                      Suitable {| RPCURL := addr;
                                  SnapshotURL := addr +:+ "/" +:+ snapshotFilename;
                                  Type_ := Type_ node;
                                  Slot := Slot node;
                                  BaseSlot := BaseSlot node;
                                  Filename := snapshotFilename;
                                  Latency := latency;
                                  SlotAge := slotAge |}
              end
          end
    end.

(** [sortNodes]: the comparison handed to [sort.Slice]. *)
Definition nodeLess (sortOrder : string) (a b : SnapshotNode) : bool :=
  if String.eqb sortOrder "slot_age" then SlotAge a <? SlotAge b
  else Latency a <? Latency b.

Definition sortNodes `{SliceSorter} (nodes : list SnapshotNode)
    (sortOrder : string) : list SnapshotNode :=
  sort_Slice (nodeLess sortOrder) nodes.

End discovery.

(** ** Package downloader

    Time is explicit: instants and durations are nanosecond counts.  The
    network and the file system answer through a [World]: what each
    request returns, when each [Read] of a body returns and with what, and
    which file operations fail.  A context is the instant at which its
    [Done] channel closes, if it ever does, with the reason. *)

Module downloader.
Import golang.

Record Options := {
  MinDownloadSpeedBytes : Z;
  MinSpeedCheckDelay : Z;
  DownloadConnections : Z;
  DownloadTimeout : Z
}.

(** *** Contexts *)

Inductive Cause :=
  | CallerCancelled
  | IdentityBecameActive
  | SpeedGateFired.

Definition Context := option (Z * Cause).

Definition Background : Context := None.

Definition ctxDone (ctx : Context) (now : Z) : bool :=
  match ctx with
  | Some (t, _) => t <=? now
  | None => false
  end.

(** [context.WithCancel(parent)] together with the instant, if any, at
    which its [cancel] is called: done at the earlier of the two. *)
Definition WithCancel (parent : Context) (cancel : option (Z * Cause))
    : Context :=
  match parent, cancel with
  | Some (tp, cp), Some (tc, cc) =>
      if tp <=? tc then Some (tp, cp) else Some (tc, cc)
  | Some p, None => Some p
  | None, c => c
  end.

(** *** The file system: the set of paths that exist *)

Definition FS := gset string.

Definition Remove (path : string) (fs : FS) : FS := fs ∖ {[path]}.

(** [filepath.Join] of a directory and a file name. *)
Definition Join (dir name : string) : string := dir +:+ "/" +:+ name.

(** *** The network *)

Inductive ReadErr := readOk | readEOF | readFailed.

(** One [Read] of a response body and the write of what it returned:
    the instant the pair completes, the byte count, the [Read]'s error and
    whether the write fails. *)
Record Transfer := {
  at_ : Z;
  count : Z;
  readErr : ReadErr;
  writeFails : bool
}.

Record HeadResponse := { ContentLength : Z; AcceptRanges : string }.
Record GetResponse := { StatusCode : Z; Body : list Transfer }.

Record World := {
  t0 : Z;                                 (* the instant of the call *)
  urlInvalid : bool;                      (* [http.NewRequestWithContext] fails *)
  head : option HeadResponse;             (* the HEAD exchange *)
  get : option GetResponse;               (* the GET without Range *)
  getRange : Z * Z → option GetResponse;  (* the GET with [Range: bytes=a-b] *)
  openFails : Z → bool;                   (* [os.OpenFile] in worker [i] *)
  createFails : bool;                     (* [os.Create] of the temp file *)
  truncateFails : bool;
  renameFails : bool
}.

(** A request bound to a context that is already done fails in the
    client; otherwise the world answers. *)
Definition Do {A} (ctx : Context) (now : Z) (answer : option A) : option A :=
  if ctxDone ctx now then None else answer.

Definition Create (w : World) (path : string) (fs : FS) : option FS :=
  if createFails w then None else Some ({[path]} ∪ fs).

Definition Rename (w : World) (old new : string) (fs : FS) : option FS :=
  if renameFails w || bool_decide (old ∉ fs) then None
  else Some ({[new]} ∪ fs ∖ {[old]}).

Inductive Error :=
  | ErrCreatingHEAD
  | ErrHEADRequest
  | ErrCreatingGET
  | ErrGETRequest
  | ErrUnexpectedStatus (code : Z)
  | ErrCreatingTemp
  | ErrTruncating
  | ErrRenaming
  | ErrWrite
  | ErrRead
  | ErrNewRequest
  | ErrDo
  | ErrExpected206 (code : Z)
  | ErrOpenFile
  | ErrChunk (index : Z) (e : Error)
    (** ["speed %s/s below minimum %s/s"]: the bytes and the elapsed time
        the speed is computed from, and the configured minimum. *)
  | ErrSpeedBelowMin (bytes elapsed minimum : Z).

Record Result := {
  FilePath : string;
  Bytes : Z;
  Duration : Z
}.

(** *** The speed gate *)

(** [totalDownloaded.Load()] at an instant: the bytes of the transfers
    completed by then. *)
Definition bytesBy (instant : Z) (body : list Transfer) : Z :=
  foldr (λ r acc, if (at_ r <=? instant) && (0 <? count r)
                  then count r + acc else acc) 0 body.

Definition gateEnabled (opts : Options) : bool :=
  (MinSpeedCheckDelay opts >? 0) && (MinDownloadSpeedBytes opts >? 0).

(** [float64(downloaded) / delay.Seconds() < float64(min)], compared
    exactly. *)
Definition tooSlow (opts : Options) (downloaded : Z) : bool :=
  downloaded * 1000000000 <? MinDownloadSpeedBytes opts * MinSpeedCheckDelay opts.

(** The goroutine of [downloadSingle]: when the timer fires before the
    context is done and the speed is too low it calls [cancel], and does
    nothing else. *)
Definition speedGateSingle (opts : Options) (ctx : Context) (start : Z)
    (body : list Transfer) : option (Z * Cause) :=
  if gateEnabled opts then
    let fire := start + MinSpeedCheckDelay opts in
    if ctxDone ctx fire then None
    else if tooSlow opts (bytesBy fire body) then Some (fire, SpeedGateFired)
    else None
  else None.

(** *** downloadSingle *)

(** The read loop: at the top of each round the [select] looks at the
    download context; [now] is the instant of that look. *)
Fixpoint readLoop (opts : Options) (downloadCtx : Context) (start now : Z)
    (total : Z) (body : list Transfer) : Z * Z * option Error :=
  if ctxDone downloadCtx now then
    (total, now,
     Some (ErrSpeedBelowMin total (now - start) (MinDownloadSpeedBytes opts)))
  else
    match body with
    | [] => (total, now, None)             (* Read returns 0, io.EOF *)
    | r :: rest =>
        if (0 <? count r) && writeFails r then (total, at_ r, Some ErrWrite)
        else
          let total' := if 0 <? count r then total + count r else total in
          match readErr r with
          | readOk => readLoop opts downloadCtx start (at_ r) total' rest
          | readEOF => (total', at_ r, None)
          | readFailed => (total', at_ r, Some ErrRead)
          end
    end.

Definition downloadSingle (w : World) (ctx : Context) (tempPath : string)
    (opts : Options) (fs : FS) : FS * (Z * Z * option Error) :=
  if urlInvalid w then (fs, (0, t0 w, Some ErrCreatingGET))
  else
    match Do ctx (t0 w) (get w) with
    | None => (fs, (0, t0 w, Some ErrGETRequest))
    | Some resp =>
        if negb (StatusCode resp =? 200) then
          (fs, (0, t0 w, Some (ErrUnexpectedStatus (StatusCode resp))))
        else
          match Create w tempPath fs with
          | None => (fs, (0, t0 w, Some ErrCreatingTemp))
          | Some fs1 =>
              let start := t0 w in
              let downloadCtx :=
                WithCancel ctx (speedGateSingle opts ctx start (Body resp)) in
              (fs1, readLoop opts downloadCtx start start 0 (Body resp))
          end
    end.

(** *** downloadParallel *)

(** The byte range of worker [i]. *)
Definition chunkRange (contentLength numConns : Z) (i : Z) : Z * Z :=
  let chunkSize := div_int64 contentLength numConns in
  let rangeStart := mul_int64 i chunkSize in
  let rangeEnd := sub_int64 (add_int64 rangeStart chunkSize) 1 in
  if i =? sub_int64 numConns 1 then (rangeStart, sub_int64 contentLength 1)
  else (rangeStart, rangeEnd).

(** The ranges of the launch loop, [i] from 0 to [numConns - 1]. *)
Definition chunkRanges (contentLength numConns : Z) : list (Z * Z) :=
  chunkRange contentLength numConns <$> seqZ 0 numConns.

(** The loop of [downloadChunk]; there is no [select] in it. *)
Fixpoint chunkLoop (now : Z) (written : Z) (body : list Transfer)
    : Z * Z * option Error :=
  match body with
  | [] => (written, now, None)
  | r :: rest =>
      if (0 <? count r) && writeFails r then (written, at_ r, Some ErrWrite)
      else
        let written' := if 0 <? count r then written + count r else written in
        match readErr r with
        | readOk => chunkLoop (at_ r) written' rest
        | readEOF => (written', at_ r, None)
        | readFailed => (written', at_ r, Some ErrRead)
        end
  end.

(** [downloadChunk] for worker [i] and its range: bytes added to the
    shared counter, the instant it returns, and its error.  When the
    workers start, the derived context is done exactly when its parent
    is. *)
Definition downloadChunk (w : World) (ctx : Context) (i : Z) (range : Z * Z)
    : Z * Z * option Error :=
  if urlInvalid w then (0, t0 w, Some ErrNewRequest)
  else
    match Do ctx (t0 w) (getRange w range) with
    | None => (0, t0 w, Some ErrDo)
    | Some resp =>
        if negb (StatusCode resp =? 206) then
          (0, t0 w, Some (ErrExpected206 (StatusCode resp)))
        else if openFails w i then (0, t0 w, Some ErrOpenFile)
        else chunkLoop (t0 w) 0 (Body resp)
    end.

(** What a worker had added to the counter by an instant. *)
Definition workerBytesBy (w : World) (ctx : Context) (instant : Z)
    (worker : Z * (Z * Z)) : Z :=
  let '(i, range) := worker in
  if urlInvalid w then 0
  else
    match Do ctx (t0 w) (getRange w range) with
    | None => 0
    | Some resp =>
        if negb (StatusCode resp =? 206) || openFails w i then 0
        else bytesBy instant (Body resp)
    end.

Definition sumZ (l : list Z) : Z := foldr Z.add 0 l.

(** The first failure among the workers, by instant; among simultaneous
    failures the lowest index.  [errOnce] keeps the first error only. *)
Fixpoint firstFailure (outcomes : list (Z * (Z * Z * option Error)))
    : option (Z * Error) :=
  match outcomes with
  | [] => None
  | (i, (_, t, oe)) :: rest =>
      match oe, firstFailure rest with
      | Some e, Some (t', e') =>
          if t <=? t' then Some (t, ErrChunk i e) else Some (t', e')
      | Some e, None => Some (t, ErrChunk i e)
      | None, later => later
      end
  end.

Definition downloadParallel (w : World) (ctx : Context) (tempPath : string)
    (contentLength : Z) (opts : Options) (fs : FS)
    : FS * (Z * Z * option Error) :=
  let numConns := DownloadConnections opts in
  match Create w tempPath fs with
  | None => (fs, (0, t0 w, Some ErrCreatingTemp))
  | Some fs1 =>
      if truncateFails w then (fs1, (0, t0 w, Some ErrTruncating))
      else
        let start := t0 w in
        let workers :=
          (λ i, (i, chunkRange contentLength numConns i)) <$> seqZ 0 numConns in
        let outcomes :=
          (λ '(i, range), (i, downloadChunk w ctx i range)) <$> workers in
        let total := sumZ ((λ o, o.2.1.1) <$> outcomes) in
        let finished := foldr Z.max start ((λ o, o.2.1.2) <$> outcomes) in
        let failure := firstFailure outcomes in
        let fire := start + MinSpeedCheckDelay opts in
        let cancelledBefore :=
          ctxDone ctx fire
          || match failure with Some (t, _) => t <=? fire | None => false end in
        let downloaded := sumZ (workerBytesBy w ctx fire <$> workers) in
        let gateError :=
          if gateEnabled opts && (fire <? finished) && negb cancelledBefore
             && tooSlow opts downloaded
          then Some (ErrSpeedBelowMin downloaded (MinSpeedCheckDelay opts)
                       (MinDownloadSpeedBytes opts))
          else None in
        let downloadErr :=
          match gateError with
          | Some e => Some e
          | None => snd <$> failure
          end in
        (fs1, (total, finished, downloadErr))
  end.

(** *** Download *)

Definition Download (w : World) (ctx : Context) (destDir filename : string)
    (opts : Options) (fs : FS) : FS * (Error + Result) :=
  let destPath := Join destDir filename in
  let tempPath := destPath +:+ ".tmp" in
  if urlInvalid w then (fs, inl ErrCreatingHEAD)
  else
    match Do ctx (t0 w) (head w) with
    | None => (fs, inl ErrHEADRequest)
    | Some headResp =>
        let contentLength := ContentLength headResp in
        let supportsRange :=
          String.eqb (AcceptRanges headResp) "bytes" && (contentLength >? 0) in
        let start := t0 w in
        let '(fs1, (totalBytes, finished, err)) :=
          if supportsRange && (DownloadConnections opts >? 1)
          then downloadParallel w ctx tempPath contentLength opts fs
          else downloadSingle w ctx tempPath opts fs in
        match err with
        | Some e => (Remove tempPath fs1, inl e)
        | None =>
            match Rename w tempPath destPath fs1 with
            | None => (Remove tempPath fs1, inl ErrRenaming)
            | Some fs2 =>
                (fs2, inr {| FilePath := destPath; Bytes := totalBytes;
                             Duration := finished - start |})
            end
        end
    end.

End downloader.

(** ** Package hooks *)

Module hooks.

(** [config.HookCommand]; the [Environment] map is listed in the order
    [runHook] ranges over it. *)
Record HookCommand := {
  Name : string;
  Cmd : string;
  Args : list string;
  Environment : list (string * string);
  AllowFailure : bool;
  StreamOutput : bool;
  Disabled : bool
}.

Record TemplateData := {
  SnapshotSlot : string;
  SnapshotType : string;
  SourceNode : string;
  DownloadTimeSec : Z;
  DownloadSizeMB : Z;
  SnapshotPath : string;
  ClusterName : string;
  ValidatorRole : string;
  Error_ : string
}.

Inductive HookError :=
  | ErrRenderCmd
  | ErrRenderArg
  | ErrRenderEnv (key : string)
  | ErrCommand.

(** The error [RunHooks] returns: ["hook %q failed: %w"]. *)
Inductive RunError := ErrHookFailed (name : string) (cause : HookError).

Section run.
(** The machine the commands run on, the template engine
    ([text/template]) and process execution ([os/exec]): a command, its
    arguments and environment go in, the new state of the machine and
    whether the command failed come out. *)
Context {Machine : Type}.
Context (renderTemplate : string → TemplateData → option string).
Context (execute : string → list string → list string → bool →
                   Machine → Machine * bool).

Fixpoint renderArgs (args : list string) (data : TemplateData)
    : option (list string) :=
  match args with
  | [] => Some []
  | arg :: rest =>
      match renderTemplate arg data with
      | None => None
      | Some rendered => cons rendered <$> renderArgs rest data
      end
  end.

Fixpoint renderEnv (env : list (string * string)) (data : TemplateData)
    : HookError + list string :=
  match env with
  | [] => inr []
  | (k, v) :: rest =>
      match renderTemplate v data with
      | None => inl (ErrRenderEnv k)
      | Some rendered =>
          match renderEnv rest data with
          | inl e => inl e
          | inr l => inr ((k +:+ "=" +:+ rendered) :: l)
          end
      end
  end.

Definition runHook (hook : HookCommand) (data : TemplateData) (m : Machine)
    : Machine * option HookError :=
  match renderTemplate (Cmd hook) data with
  | None => (m, Some ErrRenderCmd)
  | Some cmd =>
      match renderArgs (Args hook) data with
      | None => (m, Some ErrRenderArg)
      | Some args =>
          match renderEnv (Environment hook) data with
          | inl e => (m, Some e)
          | inr env =>
              let '(m', failed) := execute cmd args env (StreamOutput hook) m in
              (m', if failed then Some ErrCommand else None)
          end
      end
  end.

(** What ran: each hook handed to [runHook], with its outcome. *)
Definition Trace := list (HookCommand * option HookError).

(** [RunHooks]: the machine afterwards, what ran, and the error returned. *)
Fixpoint RunHooks (hooks : list HookCommand) (data : TemplateData)
    (m : Machine) : Machine * Trace * option RunError :=
  match hooks with
  | [] => (m, [], None)
  | hook :: rest =>
      if Disabled hook then RunHooks rest data m
      else
        let '(m1, outcome) := runHook hook data m in
        match outcome with
        | Some e =>
            if AllowFailure hook then
              let '(m2, trace, res) := RunHooks rest data m1 in
              (m2, (hook, outcome) :: trace, res)
            else (m1, [(hook, outcome)], Some (ErrHookFailed (Name hook) e))
        | None =>
            let '(m2, trace, res) := RunHooks rest data m1 in
            (m2, (hook, outcome) :: trace, res)
        end
  end.

End run.

End hooks.

(** ** Decimal rendering ([%d] of [fmt.Sprintf], [strconv.FormatUint]) *)

Module strconv.
Import golang.

Definition digitChar (d : Z) : ascii := ascii_of_nat (Z.to_nat (48 + d)).

(** The digit loop of the library: the last digit first, until the number
    is below 10.  Twenty rounds cover every [uint64]. *)
Fixpoint formatBits (rounds : nat) (u : Z) (acc : list ascii) : list ascii :=
  match rounds with
  | O => acc
  | S rounds' =>
      if u <? 10 then digitChar u :: acc
      else formatBits rounds' (u / 10) (digitChar (u mod 10) :: acc)
  end.

Definition FormatUint (u : Z) : string :=
  string_of_list_ascii (formatBits 20 u []).

End strconv.

(** ** The mock snapshot server (mock-server/main.go) *)

Module mock.
Import golang strconv.

Record SnapshotConfig := {
  FullSlot : Z;
  FullHash : string;
  FullSizeMB : Z;
  IncSlot : Z;
  IncHash : string;
  IncSizeMB : Z
}.

(** The names [snapshotHandler] builds with [fmt.Sprintf]. *)
Definition fullFilename (cfg : SnapshotConfig) : string :=
  "snapshot-" +:+ FormatUint (FullSlot cfg) +:+ "-" +:+ FullHash cfg
  +:+ ".tar.zst".

Definition incFilename (cfg : SnapshotConfig) : string :=
  if IncSlot cfg >? 0 then
    "incremental-snapshot-" +:+ FormatUint (FullSlot cfg) +:+ "-"
    +:+ FormatUint (IncSlot cfg) +:+ "-" +:+ IncHash cfg +:+ ".tar.zst"
  else "".

(** The answers to [HEAD /snapshot.tar.bz2] and
    [HEAD /incremental-snapshot.tar.bz2]: a 302 whose [Location] is a slash
    and the file name; without an incremental the second path is not
    found. *)
Definition headSnapshot (cfg : SnapshotConfig) : discovery.Response :=
  {| discovery.StatusCode := 302;
     discovery.Location := "/" +:+ fullFilename cfg |}.

Definition headIncremental (cfg : SnapshotConfig) : discovery.Response :=
  if String.eqb (incFilename cfg) "" then
    {| discovery.StatusCode := 404; discovery.Location := "" |}
  else
    {| discovery.StatusCode := 302;
       discovery.Location := "/" +:+ incFilename cfg |}.

End mock.

(** ** Package discovery, continued: addresses, rejection counters,
    paired probes and the candidate lists *)

Module gostrings.
Import golang.

(** [strings.Contains(s, substr)]. *)
Fixpoint containsAt (sub l : list ascii) : bool :=
  match stripPrefix sub l with
  | Some _ => true
  | None =>
      match l with
      | [] => false
      | _ :: rest => containsAt sub rest
      end
  end.

Definition Contains (s substr : string) : bool :=
  containsAt (chars substr) (chars s).

End gostrings.

Module probing.
Import golang gostrings discovery.

(** [rpc.ClusterNode]; [RPC] and [Version] are pointers in the source. *)
Record ClusterNode := {
  Pubkey : string;
  Gossip : string;
  RPC : option string;
  Version : option string
}.

Definition extractRPCAddresses (nodes : list ClusterNode) : list string :=
  omap (λ n,
    match RPC n with
    | Some addr =>
        if String.eqb addr "" then None
        else if negb (Contains addr "://") then Some ("http://" +:+ addr)
        else Some addr
    | None => None
    end) nodes.

(** The endpoint [probeNodes] asks every address for. *)
Definition endpointFor (snapshotType : SnapshotType) : string :=
  match snapshotType with
  | SnapshotTypeIncremental => "/incremental-snapshot.tar.bz2"
  | SnapshotTypeFull => "/snapshot.tar.bz2"
  end.

(** *** rejectionCounters

    The counters are atomics and the two compare-and-swap loops of [record]
    retry until their update lands; one call is one update of the record. *)
Record rejectionCounters := {
  httpError : Z;
  latency : Z;
  statusCode : Z;
  statusCodes : gmap Z Z;
  parseFail : Z;
  tooOld : Z;
  tooOldMinAge : Z;
  tooOldMaxAge : Z
}.

Definition newCounters : rejectionCounters :=
  {| httpError := 0; latency := 0; statusCode := 0; statusCodes := ∅;
     parseFail := 0; tooOld := 0; tooOldMinAge := 0; tooOldMaxAge := 0 |}.

(** The [error] handed to [record]: [errors.As] finds a [probeError] in it
    or not. *)
Inductive error :=
  | otherError
  | aProbeError (pe : probeError).

Definition errorOf (r : ProbeResult) : option error :=
  match r with
  | Suitable _ => None
  | Rejected pe => Some (aProbeError pe)
  | CreatingRequestFailed => Some otherError
  end.

Definition record (r : rejectionCounters) (err : error) : rejectionCounters :=
  match err with
  | otherError =>
      {| httpError := add_int64 (httpError r) 1; latency := latency r;
         statusCode := statusCode r; statusCodes := statusCodes r;
         parseFail := parseFail r; tooOld := tooOld r;
         tooOldMinAge := tooOldMinAge r; tooOldMaxAge := tooOldMaxAge r |}
  | aProbeError pe =>
      match reason pe with
      | rejectHTTPError =>
          {| httpError := add_int64 (httpError r) 1; latency := latency r;
             statusCode := statusCode r; statusCodes := statusCodes r;
             parseFail := parseFail r; tooOld := tooOld r;
             tooOldMinAge := tooOldMinAge r; tooOldMaxAge := tooOldMaxAge r |}
      | rejectLatency =>
          {| httpError := httpError r; latency := add_int64 (latency r) 1;
             statusCode := statusCode r; statusCodes := statusCodes r;
             parseFail := parseFail r; tooOld := tooOld r;
             tooOldMinAge := tooOldMinAge r; tooOldMaxAge := tooOldMaxAge r |}
      | rejectStatusCode =>
          let code := discovery.statusCode pe in
          {| httpError := httpError r; latency := latency r;
             statusCode := add_int64 (statusCode r) 1;
             statusCodes :=
               <[code := add_int64 (default 0 (statusCodes r !! code)) 1]>
                 (statusCodes r);
             parseFail := parseFail r; tooOld := tooOld r;
             tooOldMinAge := tooOldMinAge r; tooOldMaxAge := tooOldMaxAge r |}
      | rejectParseFail =>
          {| httpError := httpError r; latency := latency r;
             statusCode := statusCode r; statusCodes := statusCodes r;
             parseFail := add_int64 (parseFail r) 1; tooOld := tooOld r;
             tooOldMinAge := tooOldMinAge r; tooOldMaxAge := tooOldMaxAge r |}
      | rejectTooOld =>
          let age := slotAge pe in
          let curMin := tooOldMinAge r in
          let curMax := tooOldMaxAge r in
          {| httpError := httpError r; latency := latency r;
             statusCode := statusCode r; statusCodes := statusCodes r;
             parseFail := parseFail r; tooOld := add_int64 (tooOld r) 1;
             tooOldMinAge :=
               if negb (curMin =? 0) && (curMin <=? age) then curMin else age;
             tooOldMaxAge := if curMax >=? age then curMax else age |}
      end
  end.

(** *** Paired probes *)

Record PairedSnapshotNode := {
  Full : SnapshotNode;
  Incremental : SnapshotNode
}.

Inductive pairedRejectReason :=
  | pairedRejectFullFailed
  | pairedRejectIncrFailed
  | pairedRejectBaseSlotMismatch.

Definition withMaxSnapshotAgeSlots (opts : Options) (n : Z) : Options :=
  {| MaxLatency := MaxLatency opts; MaxSnapshotAgeSlots := n;
     ProbeConcurrency := ProbeConcurrency opts; SortOrder := SortOrder opts;
     MinSuitable := MinSuitable opts |}.

(** [probePairedNode]; [xFull] and [xIncr] are the two HEAD exchanges, the
    second one only made when the first probe succeeds. *)
Definition probePairedNode (xFull xIncr : Exchange) (addr : string)
    (currentSlot : Z) (opts : Options)
    : pairedRejectReason + PairedSnapshotNode :=
  let fullOpts := withMaxSnapshotAgeSlots opts 0 in
  match probeNode xFull addr "/snapshot.tar.bz2" currentSlot
          SnapshotTypeFull fullOpts with
  | Suitable fullNode =>
      match probeNode xIncr addr "/incremental-snapshot.tar.bz2" currentSlot
              SnapshotTypeIncremental opts with
      | Suitable incrNode =>
          if negb (BaseSlot incrNode =? Slot fullNode)
          then inl pairedRejectBaseSlotMismatch
          else inr {| Full := fullNode; Incremental := incrNode |}
      | _ => inl pairedRejectIncrFailed
      end
  | _ => inl pairedRejectFullFailed
  end.

(** [sortPairedNodes]: the comparison handed to [sort.Slice]. *)
Definition pairedLess (sortOrder : string) (a b : PairedSnapshotNode) : bool :=
  if String.eqb sortOrder "slot_age"
  then SlotAge (Incremental a) <? SlotAge (Incremental b)
  else add_int64 (Latency (Full a)) (Latency (Incremental a))
       <? add_int64 (Latency (Full b)) (Latency (Incremental b)).

Definition sortPairedNodes `{SliceSorter} (nodes : list PairedSnapshotNode)
    (sortOrder : string) : list PairedSnapshotNode :=
  sort_Slice (pairedLess sortOrder) nodes.

(** *** Candidate lists

    [results] is what [probeNodes] (or [probePairedNodes]) collected. *)
Definition DiscoverNodes `{SliceSorter} (results : list SnapshotNode)
    (opts : Options) : list SnapshotNode :=
  sortNodes results (SortOrder opts).

Definition DiscoverIncrementalForBase `{SliceSorter}
    (results : list SnapshotNode) (baseSlot : Z) (opts : Options)
    : list SnapshotNode :=
  let all := DiscoverNodes results opts in
  filter (λ n, BaseSlot n = baseSlot) all.

Definition DiscoverPairedNodes `{SliceSorter}
    (results : list PairedSnapshotNode) (opts : Options)
    : list PairedSnapshotNode :=
  sortPairedNodes results (SortOrder opts).

End probing.
(** *** Facts about the pruner model *)

Module pruner_facts.
Import golang pruner.

Lemma Remove_removeAll paths es :
  removeAll paths es = filter (λ e, Name e ∉ paths) es.
Proof.
  revert es. induction paths as [|p ps IH]; intros es; simpl.
  - induction es as [|e es IHes]; [done|].
    rewrite filter_cons_True by (by intros ?%elem_of_nil). by f_equal.
  - rewrite IH. unfold Remove. rewrite list_filter_filter.
    apply list_filter_iff. intros e. set_solver.
Qed.

(** The incrementals the last loop removes. *)
Fixpoint dropped (newestSlot : Z) (kept : bool) (incs : list SnapshotFile)
    : list SnapshotFile :=
  match incs with
  | [] => []
  | inc :: rest =>
      if negb (BaseSlot inc =? newestSlot) then inc :: dropped newestSlot kept rest
      else if kept then inc :: dropped newestSlot kept rest
      else dropped newestSlot true rest
  end.

Lemma pruneIncrementals_filter ns kept incs es :
  pruneIncrementals ns kept incs es
  = filter (λ e, Name e ∉ Path <$> dropped ns kept incs) es.
Proof.
  revert kept es. induction incs as [|inc rest IH]; intros kept es; simpl.
  - exact (Remove_removeAll [] es).
  - assert (Hrm : ∀ k, pruneIncrementals ns k rest (Remove (Path inc) es)
        = filter (λ e, Name e ∉ Path <$> (inc :: dropped ns k rest)) es).
    { intros k. rewrite IH. unfold Remove. rewrite list_filter_filter.
      apply list_filter_iff. intros e. rewrite fmap_cons. set_solver. }
    destruct (negb (BaseSlot inc =? ns)); [apply Hrm|].
    destruct kept; [apply Hrm|apply IH].
Qed.

Lemma dropped_true ns incs : dropped ns true incs = incs.
Proof.
  induction incs as [|inc rest IH]; simpl; [done|].
  rewrite IH. by destruct (negb _).
Qed.

Definition matches (ns : Z) (i : SnapshotFile) : Prop := BaseSlot i = ns.

#[local] Instance matches_dec ns i : Decision (matches ns i).
Proof. unfold matches. apply _. Defined.

Lemma dropped_false ns incs x :
  NoDup incs →
  x ∈ dropped ns false incs ↔ x ∈ incs ∧ head (filter (matches ns) incs) ≠ Some x.
Proof.
  induction 1 as [|inc rest Hnotin Hnd IH]; simpl; [set_solver|].
  destruct (Z.eqb_spec (BaseSlot inc) ns) as [Heq|Hne]; simpl.
  - rewrite dropped_true, filter_cons_True by done. simpl.
    split.
    + intros Hx. split; [set_solver|]. intros [= ->]. done.
    + intros [Hx Hhd]. apply elem_of_cons in Hx as [->|Hx]; done.
  - rewrite filter_cons_False by done.
    rewrite !elem_of_cons, IH. split.
    + intros [->|[Hx Hhd]]; [|by auto].
      split; [by left|]. intros Hhd. apply head_Some_elem_of in Hhd.
      apply list_elem_of_filter in Hhd as [_ Hin]. done.
    + intros [[->|Hx] Hhd]; [by left|by right].
Qed.

(** In a slice sorted by descending slot the first element dominates. *)
Lemma head_sorted_max (l : list SnapshotFile) k :
  StronglySorted (notAfter slotDescending) l →
  head l = Some k → ∀ m, m ∈ l → Slot m ≤ Slot k.
Proof.
  intros Hs Hhd m Hm. destruct l as [|k' l]; simplify_eq/=.
  apply StronglySorted_inv in Hs as [_ Hall].
  apply elem_of_cons in Hm as [->|Hm]; [lia|].
  rewrite Forall_forall in Hall. specialize (Hall m Hm).
  unfold notAfter, slotDescending in Hall. rewrite Z.gtb_ltb, Z.ltb_ge in Hall. lia.
Qed.

Lemma StronglySorted_filter {A} (R : relation A) (P : A → Prop)
    `{∀ x, Decision (P x)} l :
  StronglySorted R l → StronglySorted R (filter P l).
Proof.
  induction 1 as [|x l Hs IH Hall]; [constructor|].
  rewrite filter_cons. destruct (decide (P x)); [|done].
  constructor; [done|]. rewrite Forall_forall in *.
  intros y Hy. apply list_elem_of_filter in Hy as [_ Hy]. auto.
Qed.

Lemma asTemp_inv e p :
  asTemp e = Some p →
  p = Name e ∧ IsDir e = false ∧ tempFileRe (Name e) = true ∧ classify e = Temp p.
Proof.
  unfold asTemp, classify. destruct (IsDir e); [done|].
  destruct (tempFileRe (Name e)) eqn:Ht.
  - by intros [= <-].
  - by repeat case_match.
Qed.

Lemma classify_Full_inv e f :
  classify e = Full f → Path f = Name e ∧ IsDir e = false ∧ tempFileRe (Name e) = false.
Proof. unfold classify. repeat case_match; intros; by simplify_eq/=. Qed.

Lemma classify_Incremental_inv e i :
  classify e = Incremental i →
  Path i = Name e ∧ IsDir e = false ∧ tempFileRe (Name e) = false.
Proof. unfold classify. repeat case_match; intros; by simplify_eq/=. Qed.

Lemma asFull_Some e f : asFull e = Some f ↔ classify e = Full f.
Proof. unfold asFull. destruct (classify e); naive_solver. Qed.

Lemma asIncremental_Some e i : asIncremental e = Some i ↔ classify e = Incremental i.
Proof. unfold asIncremental. destruct (classify e); naive_solver. Qed.

Lemma elem_of_fulls es f : f ∈ fulls es ↔ ∃ e, e ∈ es ∧ classify e = Full f.
Proof.
  unfold fulls. rewrite list_elem_of_omap. by setoid_rewrite asFull_Some.
Qed.

Lemma elem_of_incrementals es i :
  i ∈ incrementals es ↔ ∃ e, e ∈ es ∧ classify e = Incremental i.
Proof.
  unfold incrementals. rewrite list_elem_of_omap.
  by setoid_rewrite asIncremental_Some.
Qed.

(** Two entries of one directory with the same name are the same entry. *)
Lemma Name_inj es e1 e2 :
  NoDup (Name <$> es) → e1 ∈ es → e2 ∈ es → Name e1 = Name e2 → e1 = e2.
Proof.
  induction es as [|e es IH]; [by intros _ ?%elem_of_nil|].
  rewrite fmap_cons, NoDup_cons. intros [Hfresh Hnd] H1 H2 Heq.
  apply elem_of_cons in H1 as [->|H1]; apply elem_of_cons in H2 as [->|H2];
    [done| | |by apply IH].
  - destruct Hfresh. rewrite Heq. by apply list_elem_of_fmap_2.
  - destruct Hfresh. rewrite <- Heq. by apply list_elem_of_fmap_2.
Qed.

Lemma NoDup_omap_path (g : DirEntry → option SnapshotFile) es :
  (∀ e f, g e = Some f → Path f = Name e) →
  NoDup (Name <$> es) → NoDup (omap g es).
Proof.
  intros Hg. induction es as [|e es IH]; simpl; [constructor|].
  rewrite NoDup_cons. intros [Hfresh Hnd].
  destruct (g e) as [f|] eqn:Hf; [|by apply IH].
  constructor; [|by apply IH].
  rewrite list_elem_of_omap. intros (e' & Hin & Hf').
  apply Hfresh. apply Hg in Hf, Hf'.
  rewrite <- Hf, Hf'. by apply list_elem_of_fmap_2.
Qed.

Lemma NoDup_fulls es : NoDup (Name <$> es) → NoDup (fulls es).
Proof.
  apply NoDup_omap_path. intros e f Hf%asFull_Some. by apply classify_Full_inv.
Qed.

Lemma NoDup_incrementals es : NoDup (Name <$> es) → NoDup (incrementals es).
Proof.
  apply NoDup_omap_path. intros e f Hf%asIncremental_Some.
  by apply classify_Incremental_inv.
Qed.

Lemma elem_of_dropped ns kept incs x : x ∈ dropped ns kept incs → x ∈ incs.
Proof.
  revert kept. induction incs as [|inc rest IH]; intros kept; simpl; [done|].
  repeat case_match; rewrite ?elem_of_cons; naive_solver.
Qed.

Section with_sorter.
Context `{SliceSorter}.

Definition sortedFulls (es : list DirEntry) : list SnapshotFile :=
  sort_Slice slotDescending (fulls es).
Definition sortedIncrementals (es : list DirEntry) : list SnapshotFile :=
  sort_Slice slotDescending (incrementals es).

(** Every path [Prune] hands to [os.Remove]. *)
Definition deletedPaths (es : list DirEntry) : list string :=
  tempFiles es ++
  match sortedFulls es with
  | [] => []
  | newestFull :: older =>
      (Path <$> older)
      ++ (Path <$> dropped (Slot newestFull) false (sortedIncrementals es))
  end.

Lemma Prune_filter d :
  readable d = true →
  Prune d = ({| readable := true;
                entries := filter (λ e, Name e ∉ deletedPaths (entries d))
                                  (entries d) |}, PruneOk).
Proof.
  intros Hr. unfold Prune, ReadDir, deletedPaths, sortedFulls, sortedIncrementals.
  rewrite Hr. destruct (sort_Slice slotDescending (fulls (entries d))) as [|n older].
  - rewrite Remove_removeAll, app_nil_r. done.
  - rewrite pruneIncrementals_filter, !Remove_removeAll, !list_filter_filter.
    do 2 f_equal. apply list_filter_iff. intros e.
    rewrite !not_elem_of_app. tauto.
Qed.

Lemma slotDescending_StrictWeak : StrictWeak slotDescending.
Proof. apply (sorters.StrictWeak_key_gt Slot). Qed.

Lemma elem_of_sortedFulls es f : f ∈ sortedFulls es ↔ f ∈ fulls es.
Proof. unfold sortedFulls. by rewrite sort_Slice_perm. Qed.

Lemma elem_of_sortedIncrementals es i :
  i ∈ sortedIncrementals es ↔ i ∈ incrementals es.
Proof. unfold sortedIncrementals. by rewrite sort_Slice_perm. Qed.

(** Which entries have their name among the deleted paths. *)
Lemma deleted_iff es e :
  NoDup (Name <$> es) → e ∈ es →
  Name e ∈ deletedPaths es ↔
  match classify e with
  | Temp _ => True
  | Full f => ∃ newest older, sortedFulls es = newest :: older ∧ f ∈ older
  | Incremental i =>
      ∃ newest older, sortedFulls es = newest :: older
        ∧ i ∈ dropped (Slot newest) false (sortedIncrementals es)
  | _ => False
  end.
Proof.
  intros Hnd He. unfold deletedPaths. rewrite elem_of_app. split.
  - intros [Ht|Hrest].
    + unfold tempFiles in Ht. apply list_elem_of_omap in Ht as (e' & He' & Ht).
      apply asTemp_inv in Ht as (Hn & _ & _ & Hc).
      assert (e' = e) as -> by (by apply (Name_inj es)). by rewrite Hc.
    + destruct (sortedFulls es) as [|newest older] eqn:Hs; [by apply elem_of_nil in Hrest|].
      apply elem_of_app in Hrest as [Hold|Hdrop].
      * apply list_elem_of_fmap in Hold as (f & Hp & Hf).
        assert (f ∈ fulls es) as (e' & He' & Hc)%elem_of_fulls.
        { apply elem_of_sortedFulls. rewrite Hs. by right. }
        pose proof (classify_Full_inv _ _ Hc) as (Hpath & _).
        assert (e' = e) as -> by (apply (Name_inj es); congruence).
        rewrite Hc. eauto.
      * apply list_elem_of_fmap in Hdrop as (i & Hp & Hi).
        assert (i ∈ incrementals es) as (e' & He' & Hc)%elem_of_incrementals.
        { apply elem_of_sortedIncrementals. by eapply elem_of_dropped. }
        pose proof (classify_Incremental_inv _ _ Hc) as (Hpath & _).
        assert (e' = e) as -> by (apply (Name_inj es); congruence).
        rewrite Hc. eauto.
  - destruct (classify e) as [|p|f|i|] eqn:Hc; try done.
    + intros _. left. unfold tempFiles. apply list_elem_of_omap.
      exists e. split; [done|]. unfold asTemp. rewrite Hc.
      unfold classify in Hc. repeat case_match; by simplify_eq.
    + intros (newest & older & -> & Hf). right. apply elem_of_app. left.
      apply classify_Full_inv in Hc as (<- & _). by apply list_elem_of_fmap_2.
    + intros (newest & older & -> & Hi). right. apply elem_of_app. right.
      apply classify_Incremental_inv in Hc as (<- & _). by apply list_elem_of_fmap_2.
Qed.

End with_sorter.

Section prune_claims.
Context `{SliceSorter}.

(** The listing of the directory after [Prune]. *)
Definition pruned (d : Dir) : list DirEntry := entries (Prune d).1.

Lemma pruned_eq d :
  readable d = true →
  pruned d = filter (λ e, Name e ∉ deletedPaths (entries d)) (entries d).
Proof. intros Hr. unfold pruned. by rewrite Prune_filter. Qed.

Lemma elem_of_pruned d e :
  readable d = true →
  e ∈ pruned d ↔ e ∈ entries d ∧ Name e ∉ deletedPaths (entries d).
Proof. intros Hr. rewrite pruned_eq, list_elem_of_filter by done. tauto. Qed.

Lemma sortedFulls_nil es : sortedFulls es = [] ↔ fulls es = [].
Proof.
  unfold sortedFulls. split; intros Hn.
  - apply Permutation_nil_r. by rewrite <- Hn, sort_Slice_perm.
  - apply Permutation_nil_r. by rewrite sort_Slice_perm, Hn.
Qed.

Lemma NoDup_sortedFulls es : NoDup (Name <$> es) → NoDup (sortedFulls es).
Proof. intros Hnd. unfold sortedFulls. rewrite sort_Slice_perm. by apply NoDup_fulls. Qed.

Lemma NoDup_sortedIncrementals es :
  NoDup (Name <$> es) → NoDup (sortedIncrementals es).
Proof.
  intros Hnd. unfold sortedIncrementals. rewrite sort_Slice_perm.
  by apply NoDup_incrementals.
Qed.

(** The incremental the last loop keeps: the first one, in descending slot
    order, whose base is the newest full's slot. *)
Definition keptIncremental (es : list DirEntry) (newestSlot : Z)
    : option SnapshotFile :=
  head (filter (matches newestSlot) (sortedIncrementals es)).

Lemma keptIncremental_max es ns k :
  keptIncremental es ns = Some k →
  k ∈ incrementals es ∧ BaseSlot k = ns
  ∧ ∀ m, m ∈ incrementals es → BaseSlot m = ns → Slot m ≤ Slot k.
Proof.
  unfold keptIncremental. intros Hk.
  pose proof (head_Some_elem_of _ _ Hk) as [Hm Hin]%list_elem_of_filter.
  split; [by apply elem_of_sortedIncrementals|]. split; [done|].
  intros m Hmin Hmm.
  apply (head_sorted_max (filter (matches ns) (sortedIncrementals es))); [|done|].
  - apply StronglySorted_filter.
    apply sort_Slice_sorted, slotDescending_StrictWeak.
  - apply list_elem_of_filter. split; [done|]. by apply elem_of_sortedIncrementals.
Qed.

Lemma keptIncremental_exists es ns i :
  i ∈ incrementals es → BaseSlot i = ns → is_Some (keptIncremental es ns).
Proof.
  intros Hi Hb. unfold keptIncremental.
  destruct (filter (matches ns) (sortedIncrementals es)) as [|k l] eqn:Hf; [|by eexists].
  exfalso. eapply (filter_nil_not_elem_of (matches ns)); [done|exact Hb|].
  by apply elem_of_sortedIncrementals.
Qed.

Section entry_fate.
Context (d : Dir) (Hr : readable d = true) (Hnd : NoDup (Name <$> entries d)).

Lemma pruned_iff e :
  e ∈ entries d → e ∈ pruned d ↔ Name e ∉ deletedPaths (entries d).
Proof. intros He. rewrite elem_of_pruned by done. tauto. Qed.

Lemma pruned_temp e :
  e ∈ entries d → IsDir e = false → tempFileRe (Name e) = true → e ∉ pruned d.
Proof.
  intros He Hfile Htmp. rewrite pruned_iff, deleted_iff by done.
  unfold classify. rewrite Hfile, Htmp. tauto.
Qed.

Lemma pruned_other e :
  e ∈ entries d → IsDir e = true ∨ classify e = Unmatched → e ∈ pruned d.
Proof.
  intros He Hcase. rewrite pruned_iff, deleted_iff by done.
  destruct Hcase as [Hdir|Hc]; [|rewrite Hc; tauto].
  unfold classify. rewrite Hdir. tauto.
Qed.

Lemma pruned_incremental_no_full e i :
  fulls (entries d) = [] → e ∈ entries d → classify e = Incremental i →
  e ∈ pruned d.
Proof.
  intros Hnil He Hc. rewrite pruned_iff, deleted_iff, Hc by done.
  intros (n & o & Hs & _). apply sortedFulls_nil in Hnil. congruence.
Qed.

Lemma pruned_full_iff newest older e f :
  sortedFulls (entries d) = newest :: older →
  e ∈ entries d → classify e = Full f → e ∈ pruned d ↔ f = newest.
Proof.
  intros Hs He Hc. rewrite pruned_iff, deleted_iff, Hc by done.
  pose proof (NoDup_sortedFulls _ Hnd) as Hnds. rewrite Hs in Hnds.
  apply NoDup_cons in Hnds as [Hfresh Hndo].
  assert (f ∈ newest :: older) as Hf.
  { rewrite <- Hs. apply elem_of_sortedFulls, elem_of_fulls. eauto. }
  apply elem_of_cons in Hf. split.
  - intros Hno. destruct Hf as [->|Hf]; [done|]. destruct Hno. eauto.
  - intros -> (n & o & Hs' & Ho). rewrite Hs in Hs'. by simplify_eq.
Qed.

Lemma pruned_incremental_iff newest older e i :
  sortedFulls (entries d) = newest :: older →
  e ∈ entries d → classify e = Incremental i →
  e ∈ pruned d ↔ keptIncremental (entries d) (Slot newest) = Some i.
Proof.
  intros Hs He Hc. rewrite pruned_iff, deleted_iff, Hc by done.
  assert (i ∈ sortedIncrementals (entries d)) as Hi.
  { apply elem_of_sortedIncrementals, elem_of_incrementals. eauto. }
  split.
  - intros Hno.
    destruct (decide (keptIncremental (entries d) (Slot newest) = Some i))
      as [|Hk]; [done|].
    destruct Hno. exists newest, older. split; [done|].
    apply dropped_false; [by apply NoDup_sortedIncrementals|]. done.
  - intros Hk (n & o & Hs' & Hd). rewrite Hs in Hs'. simplify_eq.
    apply dropped_false in Hd as [_ Hd]; [|by apply NoDup_sortedIncrementals].
    done.
Qed.

Lemma newest_full_max newest older f :
  sortedFulls (entries d) = newest :: older →
  f ∈ fulls (entries d) → Slot f ≤ Slot newest.
Proof.
  intros Hs Hf. eapply (head_sorted_max (sortedFulls (entries d))).
  - apply sort_Slice_sorted, slotDescending_StrictWeak.
  - by rewrite Hs.
  - by apply elem_of_sortedFulls.
Qed.

End entry_fate.

(** C3.  For a readable directory whose entries have distinct names,
    [Prune] removes every regular file whose name ends in [.tmp] or
    [.partial]; when fulls exist it keeps exactly one full, of the highest
    slot, removes every incremental whose base slot is not that full's slot,
    and among the incrementals on that base keeps exactly one, of the
    highest slot; when no full exists no incremental is removed; directories
    and files matching none of the patterns stay; nothing is added. *)
Theorem Prune_spec (d : Dir) :
  readable d = true → NoDup (Name <$> entries d) →
  let es := entries d in
  (Prune d).2 = PruneOk
  ∧ pruned d `sublist_of` es
  ∧ (∀ e, e ∈ es → IsDir e = false → tempFileRe (Name e) = true → e ∉ pruned d)
  ∧ (fulls es ≠ [] →
     ∃ newest, newest ∈ fulls es
       ∧ (∀ f, f ∈ fulls es → Slot f ≤ Slot newest)
       ∧ (∀ e f, e ∈ es → classify e = Full f → e ∈ pruned d ↔ f = newest)
       ∧ (∀ e i, e ∈ es → classify e = Incremental i →
            BaseSlot i ≠ Slot newest → e ∉ pruned d)
       ∧ ((∃ i, i ∈ incrementals es ∧ BaseSlot i = Slot newest) →
          ∃ k, k ∈ incrementals es ∧ BaseSlot k = Slot newest
            ∧ (∀ m, m ∈ incrementals es → BaseSlot m = Slot newest →
                 Slot m ≤ Slot k)
            ∧ (∀ e i, e ∈ es → classify e = Incremental i →
                 BaseSlot i = Slot newest → e ∈ pruned d ↔ i = k)))
  ∧ (fulls es = [] →
     ∀ e i, e ∈ es → classify e = Incremental i → e ∈ pruned d)
  ∧ (∀ e, e ∈ es → IsDir e = true ∨ classify e = Unmatched → e ∈ pruned d).
Proof.
  intros Hr Hnd es.
  split; [by rewrite Prune_filter|].
  split; [rewrite pruned_eq by done; apply sublist_filter|].
  split; [by apply pruned_temp|].
  split; [|split; [intros Hnil e i; by apply pruned_incremental_no_full
                  |by apply pruned_other]].
  intros Hne.
  destruct (sortedFulls es) as [|newest older] eqn:Hs;
    [by apply sortedFulls_nil in Hs|].
  exists newest. split; [|split; [|split; [|split]]].
  - apply elem_of_sortedFulls. fold es. rewrite Hs. by left.
  - intros f. by apply (newest_full_max d newest older).
  - intros e f. by apply (pruned_full_iff d Hr Hnd newest older).
  - intros e i He Hc Hb.
    rewrite (pruned_incremental_iff d Hr Hnd newest older) by done.
    intros (_ & Hkb & _)%keptIncremental_max. done.
  - intros (i0 & Hi0 & Hb0).
    destruct (keptIncremental_exists es _ i0 Hi0 Hb0) as [k Hk].
    pose proof (keptIncremental_max es _ k Hk) as (Hkin & Hkb & Hkmax).
    exists k. split; [done|]. split; [done|]. split; [done|].
    intros e i He Hc Hb.
    rewrite (pruned_incremental_iff d Hr Hnd newest older) by done.
    fold es. rewrite Hk. naive_solver.
Qed.

End prune_claims.

Section prune_twice.
Context `{SliceSorter}.

Lemma omap_all_None {A B} (g : A → option B) (l : list A) :
  (∀ x, x ∈ l → g x = None) → omap g l = [].
Proof.
  induction l as [|x l IH]; intros Hall; simpl; [done|].
  rewrite (Hall x) by (by left). apply IH. intros y Hy. apply Hall. by right.
Qed.

Lemma filter_all {A} (P : A → Prop) `{∀ x, Decision (P x)} (l : list A) :
  (∀ x, x ∈ l → P x) → filter P l = l.
Proof.
  induction l as [|x l IH]; intros Hall; [done|].
  rewrite filter_cons_True by (apply Hall; by left).
  f_equal. apply IH. intros y Hy. apply Hall. by right.
Qed.

Lemma NoDup_at_most_one {A} (l : list A) k :
  NoDup l → (∀ x, x ∈ l → x = k) → l = [] ∨ l = [k].
Proof.
  intros Hnd Hall. destruct l as [|a [|b l]]; [by left| |].
  - right. f_equal. apply Hall. by left.
  - exfalso. apply NoDup_cons in Hnd as [Hfresh _]. apply Hfresh.
    rewrite (Hall a), <- (Hall b); [by left|by right; left|by left].
Qed.

Lemma NoDup_pruned d :
  readable d = true → NoDup (Name <$> entries d) → NoDup (Name <$> pruned d).
Proof.
  intros Hr Hnd. apply (sublist_NoDup _ (Name <$> entries d)); [exact Hnd|].
  apply fmap_sublist. rewrite pruned_eq by done. apply sublist_filter.
Qed.

Lemma tempFiles_pruned d :
  readable d = true → NoDup (Name <$> entries d) → tempFiles (pruned d) = [].
Proof.
  intros Hr Hnd. apply omap_all_None. intros e He.
  destruct (asTemp e) as [p|] eqn:Hp; [|done].
  apply asTemp_inv in Hp as (_ & Hfile & Htmp & _).
  pose proof He as [Hin _]%elem_of_pruned; [|done].
  by destruct (pruned_temp d Hr Hnd e).
Qed.

Lemma fulls_pruned_nil d :
  readable d = true → fulls (entries d) = [] → fulls (pruned d) = [].
Proof.
  intros Hr Hnil. apply omap_all_None. intros e [He _]%elem_of_pruned; [|done].
  destruct (asFull e) as [f|] eqn:Hf; [|done].
  assert (f ∈ fulls (entries d)) as Hin.
  { apply elem_of_fulls. exists e. by rewrite <- asFull_Some. }
  rewrite Hnil in Hin. by apply elem_of_nil in Hin.
Qed.

Lemma fulls_pruned d newest older :
  readable d = true → NoDup (Name <$> entries d) →
  sortedFulls (entries d) = newest :: older → fulls (pruned d) = [newest].
Proof.
  intros Hr Hnd Hs. apply Permutation_singleton_r.
  apply NoDup_Permutation; [by apply NoDup_fulls, NoDup_pruned|apply NoDup_singleton|].
  intros f. rewrite elem_of_fulls, list_elem_of_singleton. split.
  - intros (e & He & Hc). pose proof He as [Hin _]%elem_of_pruned; [|done].
    by apply (pruned_full_iff d Hr Hnd newest older e f).
  - intros ->. assert (newest ∈ fulls (entries d)) as (e & He & Hc)%elem_of_fulls.
    { apply elem_of_sortedFulls. rewrite Hs. by left. }
    exists e. split; [|done].
    by apply (pruned_full_iff d Hr Hnd newest older e newest).
Qed.

Lemma dropped_pruned d newest older :
  readable d = true → NoDup (Name <$> entries d) →
  sortedFulls (entries d) = newest :: older →
  dropped (Slot newest) false (sortedIncrementals (pruned d)) = [].
Proof.
  intros Hr Hnd Hs.
  destruct (keptIncremental (entries d) (Slot newest)) as [k|] eqn:Hk.
  - destruct (NoDup_at_most_one (sortedIncrementals (pruned d)) k) as [->| ->];
      [by apply NoDup_sortedIncrementals, NoDup_pruned| |done|].
    + intros i (e & He & Hc)%elem_of_sortedIncrementals%elem_of_incrementals.
      pose proof He as [Hin _]%elem_of_pruned; [|done].
      apply (pruned_incremental_iff d Hr Hnd newest older e i) in He; [|done..].
      congruence.
    + apply keptIncremental_max in Hk as (_ & Hb & _). simpl.
      by rewrite Hb, Z.eqb_refl.
  - destruct (sortedIncrementals (pruned d)) as [|i l] eqn:Hl; [done|].
    assert (i ∈ sortedIncrementals (pruned d)) as
      (e & He & Hc)%elem_of_sortedIncrementals%elem_of_incrementals
      by (rewrite Hl; by left).
    pose proof He as [Hin _]%elem_of_pruned; [|done].
    apply (pruned_incremental_iff d Hr Hnd newest older e i) in He; [|done..].
    congruence.
Qed.

(** The second run hands nothing to [os.Remove]. *)
Lemma deletedPaths_pruned d :
  readable d = true → NoDup (Name <$> entries d) →
  deletedPaths (pruned d) = [].
Proof.
  intros Hr Hnd. unfold deletedPaths. rewrite tempFiles_pruned by done. simpl.
  destruct (sortedFulls (entries d)) as [|newest older] eqn:Hs.
  - apply sortedFulls_nil in Hs.
    by rewrite (proj2 (sortedFulls_nil (pruned d)) (fulls_pruned_nil d Hr Hs)).
  - assert (sortedFulls (pruned d) = [newest]) as ->.
    { apply Permutation_singleton_r. unfold sortedFulls.
      by rewrite sort_Slice_perm, (fulls_pruned d newest older). }
    simpl. by rewrite (dropped_pruned d newest older).
Qed.

(** C8.  Pruning twice is pruning once: the second run returns the
    directory the first run left, and issues no removal at all. *)
Theorem Prune_idempotent (d : Dir) :
  NoDup (Name <$> entries d) →
  Prune (Prune d).1 = Prune d
  ∧ (readable d = true → deletedPaths (pruned d) = []).
Proof.
  intros Hnd. split; [|intros Hr; by apply deletedPaths_pruned].
  destruct (readable d) eqn:Hr.
  - rewrite (Prune_filter d Hr). simpl.
    rewrite Prune_filter by done. simpl.
    rewrite <- (pruned_eq d Hr), deletedPaths_pruned by done.
    f_equal. f_equal. apply filter_all. intros e _. apply not_elem_of_nil.
  - unfold Prune at 2 3, ReadDir. rewrite Hr. simpl.
    unfold Prune, ReadDir. by rewrite Hr.
Qed.

End prune_twice.

(** The directory of the pruning scenario: three fulls, three
    incrementals on different bases, a temp file and a stray file. *)
Definition file (name : string) : DirEntry := {| Name := name; IsDir := false |}.

Definition crowded : Dir :=
  {| readable := true;
     entries := [ file "incremental-snapshot-100-150-HashD.tar.zst";
                  file "incremental-snapshot-200-250-HashF.tar.zst";
                  file "incremental-snapshot-300-350-HashE.tar.zst";
                  file "notes.txt";
                  file "snapshot-100-HashA.tar.zst";
                  file "snapshot-200-HashB.tar.zst";
                  file "snapshot-300-HashC.tar.zst";
                  file "snapshot-400-HashG.tar.zst.tmp" ] |}.

Lemma crowded_NoDup : NoDup (Name <$> entries crowded).
Proof.
  apply (bool_decide_unpack (NoDup (Name <$> entries crowded))).
  vm_compute. exact I.
Defined.

Lemma Prune_spec_witness :
  readable crowded = true ∧ NoDup (Name <$> entries crowded)
  ∧ (Prune (H := sorters.mergeSorter) crowded).2 = PruneOk
  ∧ pruned (H := sorters.mergeSorter) crowded `sublist_of` entries crowded.
Proof.
  destruct (Prune_spec (H := sorters.mergeSorter) crowded eq_refl crowded_NoDup)
    as (Hok & Hsub & _).
  split; [reflexivity|]. split; [exact crowded_NoDup|]. split; [exact Hok|exact Hsub].
Defined.

Lemma Prune_idempotent_witness :
  NoDup (Name <$> entries crowded)
  ∧ Prune (H := sorters.mergeSorter) (Prune (H := sorters.mergeSorter) crowded).1
    = Prune (H := sorters.mergeSorter) crowded.
Proof.
  split; [exact crowded_NoDup|].
  exact (proj1 (Prune_idempotent (H := sorters.mergeSorter) crowded crowded_NoDup)).
Defined.

Example Prune_crowded :
  entries (Prune (H := sorters.mergeSorter) crowded).1
  = [ file "incremental-snapshot-300-350-HashE.tar.zst"; file "notes.txt";
      file "snapshot-300-HashC.tar.zst" ].
Proof. by vm_compute. Qed.

(** *** Facts about the inventory helpers *)

Lemma parseUintLoop_range n s :
  0 ≤ n ≤ maxUint64 → 0 ≤ parseUintLoop n s ≤ maxUint64.
Proof.
  revert n. induction s as [|c s IH]; intros n Hn; simpl; [done|].
  destruct (isDigit c) eqn:Hd; simpl; [|unfold maxUint64; lia].
  destruct (Z.leb_spec cutoff n); [unfold maxUint64; lia|].
  destruct (Z.ltb_spec maxUint64 (n * 10 + (Z.of_nat (nat_of_ascii c) - 48)));
    [unfold maxUint64; lia|].
  apply IH. split; [|lia].
  unfold isDigit in Hd. apply andb_prop in Hd as [Hlo _].
  apply Nat.leb_le in Hlo. lia.
Qed.

Lemma ParseUint_range s : 0 ≤ ParseUint s ≤ maxUint64.
Proof.
  unfold ParseUint. destruct s; [unfold maxUint64; lia|].
  apply parseUintLoop_range. unfold maxUint64. lia.
Qed.

Lemma localSnapshot_range e f :
  localSnapshot e = Some f → 0 ≤ Slot f ≤ maxUint64.
Proof.
  unfold localSnapshot. repeat case_match; intros; simplify_eq/=;
    apply ParseUint_range.
Qed.

Lemma GetLocalSnapshots_range d snaps f :
  GetLocalSnapshots d = Some snaps → f ∈ snaps → 0 ≤ Slot f ≤ maxUint64.
Proof.
  unfold GetLocalSnapshots. destruct (ReadDir d); [|done]. intros [= <-].
  intros (e & _ & He)%list_elem_of_omap. by eapply localSnapshot_range.
Qed.

(** The newest slot of an inventory, and its newest full, as the
    specification words them. *)
Definition isNewestSlot (snaps : list SnapshotFile) (n : Z) : Prop :=
  (∃ s, s ∈ snaps ∧ Slot s = n) ∧ ∀ s, s ∈ snaps → Slot s ≤ n.

Definition isNewestFull (snaps : list SnapshotFile) (f : SnapshotFile) : Prop :=
  f ∈ snaps ∧ IsFull f = true
  ∧ ∀ g, g ∈ snaps → IsFull g = true → Slot g ≤ Slot f.

Definition newestStep (newest : Z) (s : SnapshotFile) : Z :=
  if Slot s >? newest then Slot s else newest.

Lemma NewestSlot_foldl acc snaps :
  acc ≤ foldl newestStep acc snaps
  ∧ (∀ s, s ∈ snaps → Slot s ≤ foldl newestStep acc snaps)
  ∧ (foldl newestStep acc snaps = acc
     ∨ ∃ s, s ∈ snaps ∧ Slot s = foldl newestStep acc snaps).
Proof.
  revert acc. induction snaps as [|x l IH]; intros acc; simpl.
  - split; [lia|]. split; [by intros s ?%elem_of_nil|by left].
  - destruct (IH (newestStep acc x)) as (Hle & Hall & Hex).
    assert (acc ≤ newestStep acc x ∧ Slot x ≤ newestStep acc x
            ∧ (newestStep acc x = acc ∨ newestStep acc x = Slot x)) as (H1 & H2 & H3).
    { unfold newestStep. destruct (Z.gtb_spec (Slot x) acc); lia. }
    split; [lia|]. split.
    + intros s [->|Hs]%elem_of_cons; [lia|by apply Hall].
    + destruct Hex as [Hr|(s & Hs & Hr)].
      * destruct H3 as [H3|H3]; [left; lia|].
        right. exists x. split; [by left|lia].
      * right. exists s. split; [by right|done].
Qed.

Lemma NewestSlot_newest snaps :
  snaps ≠ [] → (∀ s, s ∈ snaps → 0 ≤ Slot s) →
  isNewestSlot snaps (NewestSlot snaps).
Proof.
  intros Hne Hpos. pose proof (NewestSlot_foldl 0 snaps) as Hf.
  change (foldl newestStep 0 snaps) with (NewestSlot snaps) in Hf.
  destruct Hf as (Hle & Hall & Hex). split; [|done].
  destruct Hex as [Hr|Hex]; [|done].
  destruct snaps as [|s l]; [done|].
  exists s. split; [by left|].
  specialize (Hall s ltac:(by left)). specialize (Hpos s ltac:(by left)). lia.
Qed.

Definition newestFullStep (newest : option SnapshotFile) (s : SnapshotFile)
    : option SnapshotFile :=
  if IsFull s
     && match newest with None => true | Some n => Slot s >? Slot n end
  then Some s else newest.

Lemma newestFullStep_cases acc x :
  (newestFullStep acc x = acc
   ∧ (IsFull x = true → ∃ a, acc = Some a ∧ Slot x ≤ Slot a))
  ∨ (newestFullStep acc x = Some x ∧ IsFull x = true
     ∧ ∀ a, acc = Some a → Slot a ≤ Slot x).
Proof.
  unfold newestFullStep. destruct (IsFull x); simpl; [|by left].
  destruct acc as [a|].
  - destruct (Z.gtb_spec (Slot x) (Slot a)).
    + right. split; [done|]. split; [done|]. intros ? [= <-]. lia.
    + left. split; [done|]. intros _. exists a. split; [done|lia].
  - right. by split; [|split].
Qed.

Lemma NewestFull_foldl acc snaps :
  match foldl newestFullStep acc snaps with
  | None => acc = None ∧ ∀ g, g ∈ snaps → IsFull g = false
  | Some f =>
      (acc = Some f ∨ (f ∈ snaps ∧ IsFull f = true))
      ∧ (∀ a, acc = Some a → Slot a ≤ Slot f)
      ∧ (∀ g, g ∈ snaps → IsFull g = true → Slot g ≤ Slot f)
  end.
Proof.
  revert acc. induction snaps as [|x l IH]; intros acc; simpl.
  - destruct acc as [a|].
    + split; [by left|]. split; [by intros ? [= ->]|by intros ? ?%elem_of_nil].
    + split; [done|by intros ? ?%elem_of_nil].
  - specialize (IH (newestFullStep acc x)).
    destruct (newestFullStep_cases acc x) as [[Heq Hx]|(Heq & Hx & Hacc)];
      rewrite Heq in IH |- *;
      destruct (foldl newestFullStep _ l) as [f|].
    + destruct IH as (Hsrc & Hle & Hall). split; [|split; [done|]].
      * destruct Hsrc as [?|[? ?]]; [by left|right; split; [by right|done]].
      * intros g [->|Hg]%elem_of_cons Hfull; [|by apply Hall].
        destruct (Hx Hfull) as (a & Ha & Hxa). specialize (Hle a Ha). lia.
    + destruct IH as (Hnone & Hall). split; [done|].
      intros g [->|Hg]%elem_of_cons; [|by apply Hall].
      destruct (IsFull x) eqn:Hfx; [|done].
      destruct (Hx eq_refl) as (a & Ha & _). congruence.
    + destruct IH as (Hsrc & Hle & Hall). specialize (Hle x eq_refl).
      split; [|split].
      * right. destruct Hsrc as [[= <-]|[? ?]]; (split; [|done]); [by left|by right].
      * intros a Ha. specialize (Hacc a Ha). lia.
      * intros g [->|Hg]%elem_of_cons Hfull; [done|by apply Hall].
    + by destruct IH.
Qed.

Lemma NewestFullSnapshot_None snaps :
  NewestFullSnapshot snaps = None → ∀ g, g ∈ snaps → IsFull g = false.
Proof.
  intros Hn. pose proof (NewestFull_foldl None snaps) as Hf.
  change (foldl newestFullStep None snaps) with (NewestFullSnapshot snaps) in Hf.
  rewrite Hn in Hf. by destruct Hf.
Qed.

Lemma NewestFullSnapshot_Some snaps f :
  NewestFullSnapshot snaps = Some f → isNewestFull snaps f.
Proof.
  intros Hs. pose proof (NewestFull_foldl None snaps) as Hf.
  change (foldl newestFullStep None snaps) with (NewestFullSnapshot snaps) in Hf.
  rewrite Hs in Hf. destruct Hf as ([|[Hin Hfull]] & _ & Hall); [done|].
  by split; [|split].
Qed.

End pruner_facts.

Module keeper_facts.
Import golang pruner keeper pruner_facts.

Lemma sub_uint64_exact a b :
  0 ≤ b → b < a → a ≤ maxUint64 → sub_uint64 a b = a - b.
Proof.
  unfold sub_uint64, maxUint64. intros. apply Z.mod_small. lia.
Qed.

Lemma to_uint64_exact x : 0 ≤ x ≤ maxInt64 → to_uint64 x = x.
Proof. unfold to_uint64, maxInt64. intros. apply Z.mod_small. lia. Qed.

(** C1.  The decision table of the freshness assessment, first match
    first: an unreadable directory gives (full, 0); an empty inventory
    gives (full, 0); a newest local slot at or beyond the tip gives
    (skip, 0); a distance to the tip within [max_incremental_slots] gives
    (skip, 0); otherwise a local full gives (incremental, slot of the
    newest full), and no local full gives (full, 0).  No case returns an
    error. *)
Theorem assessFreshness_table (cfg : Config) (dir : Dir) (T : Z) :
  0 ≤ T ≤ maxUint64 →
  0 ≤ MaxIncrementalSlots cfg ≤ maxInt64 →
  (ReadDir dir = None → assessFreshness cfg dir T = (modeFull, 0, None))
  ∧ ∀ snaps, GetLocalSnapshots dir = Some snaps →
      (snaps = [] → assessFreshness cfg dir T = (modeFull, 0, None))
      ∧ (snaps ≠ [] →
         ∃ newest, isNewestSlot snaps newest
           ∧ (T ≤ newest → assessFreshness cfg dir T = (modeSkip, 0, None))
           ∧ (newest < T → T - newest ≤ MaxIncrementalSlots cfg →
              assessFreshness cfg dir T = (modeSkip, 0, None))
           ∧ (newest < T → MaxIncrementalSlots cfg < T - newest →
              (∃ g, g ∈ snaps ∧ IsFull g = true) →
              ∃ f, isNewestFull snaps f
                ∧ assessFreshness cfg dir T = (modeIncremental, Slot f, None))
           ∧ (newest < T → MaxIncrementalSlots cfg < T - newest →
              (∀ g, g ∈ snaps → IsFull g = false) →
              assessFreshness cfg dir T = (modeFull, 0, None))).
Proof.
  intros HT Hthr. split.
  - intros Hrd. unfold assessFreshness, GetLocalSnapshots. by rewrite Hrd.
  - intros snaps Hsn. unfold assessFreshness. rewrite Hsn. split.
    + by intros ->.
    + intros Hne.
      assert (Hrange : ∀ s, s ∈ snaps → 0 ≤ Slot s ≤ maxUint64)
        by (intros s; by apply (GetLocalSnapshots_range dir)).
      pose proof (NewestSlot_newest snaps Hne (λ s Hs, proj1 (Hrange s Hs)))
        as Hnew.
      assert (0 ≤ NewestSlot snaps) as Hpos.
      { destruct Hnew as [(s & Hs & <-) _]. by apply Hrange. }
      exists (NewestSlot snaps). split; [done|].
      destruct snaps as [|s0 rest]; [done|]. simpl length. simpl Nat.eqb.
      cbv iota. set (snaps := s0 :: rest) in *.
      rewrite Z.geb_leb.
      destruct (Z.leb_spec T (NewestSlot snaps)) as [Hge|Hlt].
      { split; [done|]. repeat split; intros; lia. }
      rewrite sub_uint64_exact, to_uint64_exact by lia.
      split; [intros; lia|].
      destruct (Z.leb_spec (T - NewestSlot snaps) (MaxIncrementalSlots cfg))
        as [Hin|Hout].
      { split; [done|]. split; intros; lia. }
      split; [intros; lia|].
      destruct (NewestFullSnapshot snaps) as [f|] eqn:Hf.
      * apply NewestFullSnapshot_Some in Hf. split.
        -- intros _ _ _. by exists f.
        -- intros _ _ Hnofull. destruct Hf as (Hin & Hfull & _).
           rewrite (Hnofull f Hin) in Hfull. done.
      * split; [|done]. intros _ _ (g & Hg & Hfull).
        rewrite (NewestFullSnapshot_None snaps Hf g Hg) in Hfull. done.
Qed.

(** The freshness scenario: a full at 99500 with an incremental up to
    100050, the tip at 100100, the default threshold of 1300 slots. *)
Definition freshDir : Dir :=
  {| readable := true;
     entries := [ {| Name := "incremental-snapshot-99500-100050-Y.tar.zst";
                     IsDir := false |};
                  {| Name := "snapshot-99500-X.tar.zst"; IsDir := false |} ] |}.

Definition defaultConfig : Config := {| MaxIncrementalSlots := 1300 |}.

Lemma assessFreshness_table_witness :
  assessFreshness defaultConfig freshDir 100100 = (modeSkip, 0, None).
Proof.
  assert (HT : 0 ≤ 100100 ≤ maxUint64) by (unfold maxUint64; lia).
  assert (Hthr : 0 ≤ MaxIncrementalSlots defaultConfig ≤ maxInt64)
    by (unfold maxInt64; simpl; lia).
  destruct (assessFreshness_table defaultConfig freshDir 100100 HT Hthr)
    as [_ Hrows].
  destruct (Hrows _ eq_refl) as [_ Hne].
  destruct (Hne ltac:(discriminate))
    as (newest & [(s & Hs & Hslot) _] & _ & Hskip & _).
  assert (newest = 100050 ∨ newest = 99500) as Hnewest.
  { subst newest. vm_compute in Hs.
    apply elem_of_cons in Hs as [->|Hs]; [by left|].
    apply elem_of_cons in Hs as [->|Hs]; [by right|].
    by apply elem_of_nil in Hs. }
  apply Hskip; simpl; lia.
Defined.

End keeper_facts.

Module downloader_facts.
Import golang downloader.

(** *** Chunk ranges *)

Lemma wrap_int64_small x : - 2 ^ 63 ≤ x ≤ maxInt64 → wrap_int64 x = x.
Proof.
  unfold wrap_int64, maxInt64. intros Hx.
  rewrite Z.mod_small by lia. lia.
Qed.

(** Within the bounds of [int64] the range of worker [i] is computed
    without wrap-around. *)
Lemma chunkRange_exact L N i :
  0 < L ≤ maxInt64 → 1 ≤ N ≤ maxInt64 → 0 ≤ i < N →
  chunkRange L N i =
    if i =? N - 1 then (i * (L / N), L - 1)
    else (i * (L / N), (i + 1) * (L / N) - 1).
Proof.
  intros HL HN Hi. unfold chunkRange, div_int64, mul_int64, add_int64, sub_int64.
  rewrite Z.quot_div_nonneg by lia.
  assert (0 ≤ L / N) as Hcs by (apply Z.div_pos; lia).
  assert (N * (L / N) ≤ L) as Hmul by (apply Z.mul_div_le; lia).
  assert (L / N ≤ L) as Hle by nia.
  rewrite (wrap_int64_small (L / N)) by (unfold maxInt64 in *; lia).
  rewrite (wrap_int64_small (N - 1)) by (unfold maxInt64 in *; lia).
  rewrite (wrap_int64_small (L - 1)) by (unfold maxInt64 in *; lia).
  assert (0 ≤ i * (L / N) ∧ (i + 1) * (L / N) ≤ L) as [H1 H2] by nia.
  rewrite (wrap_int64_small (i * (L / N))) by (unfold maxInt64 in *; lia).
  rewrite (wrap_int64_small (i * (L / N) + L / N)) by (unfold maxInt64 in *; lia).
  rewrite (wrap_int64_small (i * (L / N) + L / N - 1))
    by (unfold maxInt64 in *; lia).
  destruct (i =? N - 1); f_equal; lia.
Qed.

Lemma chunkRanges_lookup L N (k : nat) r :
  chunkRanges L N !! k = Some r ↔
  Z.of_nat k < N ∧ r = chunkRange L N (Z.of_nat k).
Proof.
  unfold chunkRanges. rewrite list_lookup_fmap, fmap_Some. split.
  - intros (i & (-> & Hlt)%lookup_seqZ & ->). split; [done|]. f_equal.
  - intros [Hlt ->]. exists (Z.of_nat k). split; [|done].
    apply lookup_seqZ. split; [lia|done].
Qed.

(** C5.  For a positive content length and at least one connection (both
    within [int64]), the launch loop produces [N] ranges of the stated
    shape; every offset of [0, content_length - 1] lies in some range, no
    range reaches outside it, and no offset lies in two ranges. *)
Theorem chunkRanges_tile (L N : Z) :
  0 < L ≤ maxInt64 → 1 ≤ N ≤ maxInt64 →
  length (chunkRanges L N) = Z.to_nat N
  ∧ (∀ k : nat, Z.of_nat k < N →
       chunkRanges L N !! k =
         Some (if Z.of_nat k =? N - 1
               then (Z.of_nat k * (L / N), L - 1)
               else (Z.of_nat k * (L / N), (Z.of_nat k + 1) * (L / N) - 1)))
  ∧ (∀ x, 0 ≤ x ≤ L - 1 ↔
       ∃ k a b, chunkRanges L N !! k = Some (a, b) ∧ a ≤ x ≤ b)
  ∧ (∀ k1 k2 a1 b1 a2 b2 x,
       chunkRanges L N !! k1 = Some (a1, b1) →
       chunkRanges L N !! k2 = Some (a2, b2) →
       a1 ≤ x ≤ b1 → a2 ≤ x ≤ b2 → k1 = k2).
Proof.
  intros HL HN.
  assert (0 ≤ L / N) as Hcs by (apply Z.div_pos; lia).
  assert (N * (L / N) ≤ L) as Hmul by (apply Z.mul_div_le; lia).
  assert (L < N * (L / N) + N) as Hup.
  { pose proof (Z.div_mod L N ltac:(lia)). pose proof (Z.mod_pos_bound L N ltac:(lia)).
    lia. }
  assert (Hshape : ∀ k a b, chunkRanges L N !! k = Some (a, b) →
            Z.of_nat k < N ∧ a = Z.of_nat k * (L / N)
            ∧ ((Z.of_nat k = N - 1 ∧ b = L - 1)
               ∨ (Z.of_nat k < N - 1 ∧ b = (Z.of_nat k + 1) * (L / N) - 1))).
  { intros k a b [Hk Hr]%chunkRanges_lookup. split; [done|].
    rewrite chunkRange_exact in Hr by lia.
    destruct (Z.eqb_spec (Z.of_nat k) (N - 1)); simplify_eq; split; auto.
    right. split; [lia|done]. }
  split; [|split; [|split]].
  - unfold chunkRanges. by rewrite length_fmap, length_seqZ.
  - intros k Hk. apply chunkRanges_lookup. split; [done|].
    symmetry. apply chunkRange_exact; lia.
  - intros x. split.
    + intros Hx.
      destruct (Z_lt_le_dec (x / (L / N)) (N - 1)) as [Hin|Hlast].
      * destruct (Z.eq_dec (L / N) 0) as [Hz|Hnz].
        { rewrite Hz, Z.div_0_r in Hin.
          exists (Z.to_nat (N - 1)), ((N - 1) * (L / N)), (L - 1). split.
          - apply chunkRanges_lookup. split; [lia|].
            rewrite chunkRange_exact by lia. rewrite Z2Nat.id by lia.
            by rewrite Z.eqb_refl.
          - rewrite Hz. lia. }
        assert (0 ≤ x / (L / N)) by (apply Z.div_pos; lia).
        pose proof (Z.div_mod x (L / N) Hnz).
        pose proof (Z.mod_pos_bound x (L / N) ltac:(lia)).
        exists (Z.to_nat (x / (L / N))), (x / (L / N) * (L / N)),
          ((x / (L / N) + 1) * (L / N) - 1). split.
        -- apply chunkRanges_lookup. split; [lia|].
           rewrite chunkRange_exact by lia. rewrite Z2Nat.id by lia.
           destruct (Z.eqb_spec (x / (L / N)) (N - 1)); [lia|done].
        -- lia.
      * exists (Z.to_nat (N - 1)), ((N - 1) * (L / N)), (L - 1). split.
        -- apply chunkRanges_lookup. split; [lia|].
           rewrite chunkRange_exact by lia. rewrite Z2Nat.id by lia.
           by rewrite Z.eqb_refl.
        -- split; [|lia].
           destruct (Z.eq_dec (L / N) 0) as [Hz|Hnz]; [rewrite Hz; lia|].
           pose proof (Z.div_mod x (L / N) Hnz).
           pose proof (Z.mod_pos_bound x (L / N) ltac:(lia)). nia.
    + intros (k & a & b & Hk & Hx).
      apply Hshape in Hk as (Hlt & -> & [[Hk ->]|[Hk ->]]); nia.
  - intros k1 k2 a1 b1 a2 b2 x H1 H2 Hx1 Hx2.
    apply Hshape in H1 as (Hlt1 & -> & Hb1).
    apply Hshape in H2 as (Hlt2 & -> & Hb2).
    destruct (Z.lt_trichotomy (Z.of_nat k1) (Z.of_nat k2)) as [Hlt|[Heq|Hgt]];
      [exfalso|lia|exfalso].
    + destruct Hb1 as [[? ->]|[? ->]]; [lia|]. nia.
    + destruct Hb2 as [[? ->]|[? ->]]; [lia|]. nia.
Qed.

(** *** Atomic finalize *)

Lemma temp_path_fresh (p : string) : p +:+ ".tmp" ≠ p.
Proof. induction p as [|c p IH]; simpl; [done|]. intros [= Heq]. by apply IH. Qed.

Lemma downloadSingle_fs w ctx tmp opts fs fs1 total fin err :
  downloadSingle w ctx tmp opts fs = (fs1, (total, fin, err)) →
  fs1 = {[tmp]} ∪ fs ∨ (fs1 = fs ∧ is_Some err).
Proof.
  unfold downloadSingle, Create. intros Hd.
  repeat case_match; simplify_eq; eauto.
Qed.

Lemma downloadParallel_fs w ctx tmp len opts fs fs1 total fin err :
  downloadParallel w ctx tmp len opts fs = (fs1, (total, fin, err)) →
  fs1 = {[tmp]} ∪ fs ∨ (fs1 = fs ∧ is_Some err).
Proof.
  unfold downloadParallel, Create. intros Hd.
  repeat case_match; simplify_eq; eauto.
Qed.

(** C2, as the code has it.  With no destination file beforehand: on
    success the destination exists, the temp file does not, and the result
    names the destination; on an error the destination still does not
    exist, and the temp file does not exist either unless the call failed
    at the HEAD preflight, which returns with the directory as it was. *)
Theorem Download_finalize (w : World) (ctx : Context)
    (destDir filename : string) (opts : Options) (fs : FS) :
  let dest := Join destDir filename in
  let tmp := dest +:+ ".tmp" in
  dest ∉ fs →
  match Download w ctx destDir filename opts fs with
  | (fs', inr r) => FilePath r = dest ∧ dest ∈ fs' ∧ tmp ∉ fs'
  | (fs', inl e) =>
      (dest ∉ fs')
      ∧ (tmp ∉ fs' ∨ ((e = ErrCreatingHEAD ∨ e = ErrHEADRequest) ∧ fs' = fs))
      ∧ (tmp ∉ fs → tmp ∉ fs')
  end.
Proof.
  intros dest tmp Hdest. unfold Download. fold dest. fold tmp.
  pose proof (temp_path_fresh dest) as Hne. fold tmp in Hne.
  destruct (urlInvalid w); [by eauto 6|].
  destruct (Do ctx (t0 w) (head w)) as [headResp|]; [|by eauto 6].
  set (branch := (if (_ : bool) then _ else _)).
  assert (∃ fs1 total fin err, branch = (fs1, (total, fin, err))
            ∧ (fs1 = {[tmp]} ∪ fs ∨ (fs1 = fs ∧ is_Some err)))
    as (fs1 & total & fin & err & -> & Hfs).
  { destruct branch as [fs1 [[total fin] err]] eqn:Hb. exists fs1, total, fin, err.
    split; [done|]. subst branch.
    destruct (_ && _) in Hb;
      [by eapply downloadParallel_fs|by eapply downloadSingle_fs]. }
  destruct err as [e|].
  - unfold Remove. split; [|split; [left|intros _]]; set_solver.
  - destruct Hfs as [->|[_ [? [=]]]]. unfold Rename.
    destruct (renameFails w); simpl.
    + unfold Remove. split; [|split; [left|intros _]]; set_solver.
    + rewrite bool_decide_eq_false_2 by set_solver.
      split; [done|]. set_solver.
Qed.

(** *** Cancellation seen by the read loop *)

(** A round that neither ends nor fails the loop. *)
Definition carriesOn (r : Transfer) : Prop :=
  readErr r = readOk ∧ (0 <? count r) && writeFails r = false.

(** The bytes the rounds add to [total]. *)
Definition received (rounds : list Transfer) : Z :=
  foldr (λ r acc, (if 0 <? count r then count r else 0) + acc) 0 rounds.

(** The instant of the look that follows the given rounds. *)
Fixpoint nextLook (now : Z) (rounds : list Transfer) : Z :=
  match rounds with
  | [] => now
  | r :: rest => nextLook (at_ r) rest
  end.

(** None of the looks before the given rounds found the context done. *)
Fixpoint unseen (downloadCtx : Context) (now : Z) (rounds : list Transfer)
    : Prop :=
  match rounds with
  | [] => True
  | r :: rest => ctxDone downloadCtx now = false ∧ unseen downloadCtx (at_ r) rest
  end.

Lemma readLoop_seen opts dctx start rounds :
  ∀ now total rest,
    Forall carriesOn rounds →
    unseen dctx now rounds →
    ctxDone dctx (nextLook now rounds) = true →
    readLoop opts dctx start now total (rounds ++ rest)
    = (total + received rounds, nextLook now rounds,
       Some (ErrSpeedBelowMin (total + received rounds)
               (nextLook now rounds - start) (MinDownloadSpeedBytes opts))).
Proof.
  induction rounds as [|r rounds IH]; intros now total rest Hcarry Hun Hseen.
  - simpl in *. rewrite Z.add_0_r. destruct rest; simpl; by rewrite Hseen.
  - apply Forall_cons in Hcarry as [[Herr Hw] Hcarry]. destruct Hun as [Hnow Hun].
    cbn [readLoop app nextLook received foldr]. rewrite Hnow, Hw, Herr.
    rewrite IH by done. fold (received rounds).
    by replace (total + ((if 0 <? count r then count r else 0) + received rounds))
      with ((if 0 <? count r then total + count r else total) + received rounds)
      by (destruct (0 <? count r); lia).
Qed.

(** C9, as the code has it.  When a look of the read loop finds the
    download context done, whatever closed it (the caller, the identity
    monitor or the speed gate) and whether or not the gate is enabled,
    [downloadSingle] returns the speed error built from the bytes received
    so far, the time since the start and the configured minimum. *)
Theorem downloadSingle_seen_cancel (w : World) (ctx : Context)
    (tempPath : string) (opts : Options) (fs : FS) (resp : GetResponse)
    (rounds rest : list Transfer) :
  let downloadCtx :=
    WithCancel ctx (speedGateSingle opts ctx (t0 w) (Body resp)) in
  urlInvalid w = false → createFails w = false →
  Do ctx (t0 w) (get w) = Some resp → StatusCode resp = 200 →
  Body resp = rounds ++ rest →
  Forall carriesOn rounds →
  unseen downloadCtx (t0 w) rounds →
  ctxDone downloadCtx (nextLook (t0 w) rounds) = true →
  downloadSingle w ctx tempPath opts fs
  = ({[tempPath]} ∪ fs,
     (received rounds, nextLook (t0 w) rounds,
      Some (ErrSpeedBelowMin (received rounds)
              (nextLook (t0 w) rounds - t0 w) (MinDownloadSpeedBytes opts)))).
Proof.
  intros dctx Hurl Hcreate Hdo Hstatus Hbody Hcarry Hun Hseen.
  unfold downloadSingle, Create. rewrite Hurl, Hdo, Hstatus, Hcreate. simpl.
  change (WithCancel ctx _) with dctx. rewrite Hbody.
  by rewrite (readLoop_seen opts dctx (t0 w) rounds (t0 w) 0 rest).
Qed.

(** *** Concrete runs *)

Definition second : Z := 1000000000.

(** A server without range support that delivers 100 bytes in one piece,
    ten seconds after the request. *)
Definition slowWorld : World :=
  {| t0 := 0; urlInvalid := false;
     head := Some {| ContentLength := 100; AcceptRanges := "" |};
     get := Some {| StatusCode := 200;
                    Body := [ {| at_ := 10 * second; count := 100;
                                 readErr := readEOF; writeFails := false |} ] |};
     getRange := λ _, None; openFails := λ _, false;
     createFails := false; truncateFails := false; renameFails := false |}.

(** Speed gate off, one connection, a download timeout of one second. *)
Definition slowOpts : Options :=
  {| MinDownloadSpeedBytes := 0; MinSpeedCheckDelay := 0;
     DownloadConnections := 1; DownloadTimeout := 1 * second |}.

Lemma readLoop_opts o1 o2 dctx start body :
  MinDownloadSpeedBytes o1 = MinDownloadSpeedBytes o2 →
  ∀ now total,
    readLoop o1 dctx start now total body = readLoop o2 dctx start now total body.
Proof.
  intros Hmin. induction body as [|r body IH]; intros now total; simpl.
  - by rewrite Hmin.
  - rewrite Hmin. destruct (ctxDone dctx now); [done|].
    destruct (_ && _); [done|]. destruct (readErr r); [apply IH|done..].
Qed.

Lemma downloadSingle_timeout w ctx tmp fs minSpeed delay conns timeout timeout' :
  downloadSingle w ctx tmp
    {| MinDownloadSpeedBytes := minSpeed; MinSpeedCheckDelay := delay;
       DownloadConnections := conns; DownloadTimeout := timeout |} fs
  = downloadSingle w ctx tmp
      {| MinDownloadSpeedBytes := minSpeed; MinSpeedCheckDelay := delay;
         DownloadConnections := conns; DownloadTimeout := timeout' |} fs.
Proof.
  unfold downloadSingle. destruct (urlInvalid w); [done|].
  destruct (Do ctx (t0 w) (get w)) as [resp|]; [|done].
  destruct (negb _); [done|]. destruct (Create w tmp fs); [|done].
  f_equal. by apply readLoop_opts.
Qed.

(** C6.  [Download] never reads [DownloadTimeout]: its outcome is the same
    for every value of the option, and a transfer that lasts ten seconds
    under a one-second timeout, with no other source of cancellation, runs
    to completion and succeeds. *)
Theorem Download_outlives_timeout :
  (∀ w ctx destDir filename fs minSpeed delay conns timeout timeout',
     Download w ctx destDir filename
       {| MinDownloadSpeedBytes := minSpeed; MinSpeedCheckDelay := delay;
          DownloadConnections := conns; DownloadTimeout := timeout |} fs
     = Download w ctx destDir filename
         {| MinDownloadSpeedBytes := minSpeed; MinSpeedCheckDelay := delay;
            DownloadConnections := conns; DownloadTimeout := timeout' |} fs)
  ∧ (Download slowWorld Background "/snapshots" "snapshot-100-Hash.tar.zst"
       slowOpts ∅).2
    = inr {| FilePath := "/snapshots/snapshot-100-Hash.tar.zst";
             Bytes := 100; Duration := 10 * second |}
  ∧ DownloadTimeout slowOpts < 10 * second.
Proof.
  split; [|split; [|done]].
  - intros. unfold Download. destruct (urlInvalid w); [done|].
    destruct (Do ctx (t0 w) (head w)) as [headResp|]; [|done].
    cbn [DownloadConnections]. destruct (_ && _); [done|].
    by rewrite (downloadSingle_timeout _ _ _ _ _ _ _ timeout timeout').
  - unfold Download, downloadSingle, Do, Create, Rename. simpl.
    by rewrite bool_decide_eq_false_2 by set_solver.
Qed.

(** A server with range support: every ranged GET returns its range in one
    piece, two nanoseconds after the request. *)
Definition rangeWorld : World :=
  {| t0 := 0; urlInvalid := false;
     head := Some {| ContentLength := 10; AcceptRanges := "bytes" |};
     get := None;
     getRange := λ '(a, b),
       Some {| StatusCode := 206;
               Body := [ {| at_ := 2; count := b - a + 1; readErr := readEOF;
                            writeFails := false |} ] |};
     openFails := λ _, false;
     createFails := false; truncateFails := false; renameFails := false |}.

Example Download_parallel_ok :
  (Download rangeWorld Background "/snapshots" "snapshot-100-Hash.tar.zst"
     {| MinDownloadSpeedBytes := 0; MinSpeedCheckDelay := 0;
        DownloadConnections := 3; DownloadTimeout := 60 * second |} ∅).2
  = inr {| FilePath := "/snapshots/snapshot-100-Hash.tar.zst";
           Bytes := 10; Duration := 2 |}.
Proof.
  unfold Download, downloadParallel, Do, Create, Rename. simpl.
  by rewrite bool_decide_eq_false_2 by set_solver.
Qed.

(** The same server answering after ten seconds, against a gate of 100
    bytes per second checked after five: the gate error is returned. *)
Definition lateRangeWorld : World :=
  {| t0 := 0; urlInvalid := false;
     head := Some {| ContentLength := 10; AcceptRanges := "bytes" |};
     get := None;
     getRange := λ '(a, b),
       Some {| StatusCode := 206;
               Body := [ {| at_ := 10 * second; count := b - a + 1;
                            readErr := readEOF; writeFails := false |} ] |};
     openFails := λ _, false;
     createFails := false; truncateFails := false; renameFails := false |}.

Example Download_parallel_gate :
  (Download lateRangeWorld Background "/snapshots" "snapshot-100-Hash.tar.zst"
     {| MinDownloadSpeedBytes := 100; MinSpeedCheckDelay := 5 * second;
        DownloadConnections := 2; DownloadTimeout := 60 * second |} ∅).2
  = inl (ErrSpeedBelowMin 0 (5 * second) 100).
Proof. reflexivity. Qed.

Lemma chunkRanges_tile_witness :
  0 < 10 ≤ maxInt64 ∧ 1 ≤ 3 ≤ maxInt64
  ∧ chunkRanges 10 3 = [(0, 2); (3, 5); (6, 9)]
  ∧ ∀ x, 0 ≤ x ≤ 10 - 1 ↔
      ∃ k a b, chunkRanges 10 3 !! k = Some (a, b) ∧ a ≤ x ≤ b.
Proof.
  assert (H10 : 0 < 10 ≤ maxInt64) by (unfold maxInt64; lia).
  assert (H3 : 1 ≤ 3 ≤ maxInt64) by (unfold maxInt64; lia).
  destruct (chunkRanges_tile 10 3 H10 H3) as (_ & _ & Hcover & _).
  split; [exact H10|]. split; [exact H3|]. split; [reflexivity|exact Hcover].
Defined.

(** A server that cannot be reached, and a directory in which an earlier
    run left the temp file of the same snapshot behind. *)
Definition deadWorld : World :=
  {| t0 := 0; urlInvalid := false; head := None; get := None;
     getRange := λ _, None; openFails := λ _, false;
     createFails := false; truncateFails := false; renameFails := false |}.

Definition staleTemp : FS := {[ "/snapshots/snapshot-100-Hash.tar.zst.tmp" ]}.

(** C2 as stated fails: the destination is absent beforehand, [Download]
    returns an error, and the temp file is still there. *)
Lemma Download_keeps_stale_temp :
  let out := Download deadWorld Background "/snapshots"
               "snapshot-100-Hash.tar.zst" slowOpts staleTemp in
  (Join "/snapshots" "snapshot-100-Hash.tar.zst" ∉ staleTemp)
  ∧ out.2 = inl ErrHEADRequest
  ∧ Join "/snapshots" "snapshot-100-Hash.tar.zst" +:+ ".tmp" ∈ out.1.
Proof.
  simpl. unfold staleTemp. split; [|split; [done|]].
  - apply not_elem_of_singleton. done.
  - by apply elem_of_singleton.
Qed.

Lemma Download_finalize_witness :
  (Join "/snapshots" "snapshot-100-Hash.tar.zst" ∉ (∅ : FS))
  ∧ match Download slowWorld Background "/snapshots"
            "snapshot-100-Hash.tar.zst" slowOpts ∅ with
    | (fs', inr r) =>
        FilePath r = "/snapshots/snapshot-100-Hash.tar.zst"
        ∧ "/snapshots/snapshot-100-Hash.tar.zst" ∈ fs'
        ∧ "/snapshots/snapshot-100-Hash.tar.zst.tmp" ∉ fs'
    | (fs', inl e) =>
        ("/snapshots/snapshot-100-Hash.tar.zst" ∉ fs')
        ∧ ("/snapshots/snapshot-100-Hash.tar.zst.tmp" ∉ fs'
           ∨ ((e = ErrCreatingHEAD ∨ e = ErrHEADRequest) ∧ fs' = ∅))
        ∧ ("/snapshots/snapshot-100-Hash.tar.zst.tmp" ∉ (∅ : FS) →
           "/snapshots/snapshot-100-Hash.tar.zst.tmp" ∉ fs')
    end.
Proof.
  assert (Hfresh : Join "/snapshots" "snapshot-100-Hash.tar.zst" ∉ (∅ : FS))
    by apply not_elem_of_empty.
  split; [exact Hfresh|].
  exact (Download_finalize slowWorld Background "/snapshots"
           "snapshot-100-Hash.tar.zst" slowOpts ∅ Hfresh).
Defined.

(** A transfer too slow for the gate (nothing in the first five seconds
    against a floor of 100 bytes per second) whose only read returns its
    data together with the end of the body, after ten seconds. *)
Definition gatedOpts : Options :=
  {| MinDownloadSpeedBytes := 100; MinSpeedCheckDelay := 5 * second;
     DownloadConnections := 1; DownloadTimeout := 1800 * second |}.

(** C9 as stated fails: the gate cancels the download context after five
    seconds, the context is done when the function returns, and the
    function returns no error. *)
Lemma downloadSingle_cancel_unreported :
  let resp := {| StatusCode := 200;
                 Body := [ {| at_ := 10 * second; count := 100;
                              readErr := readEOF; writeFails := false |} ] |} in
  let downloadCtx :=
    WithCancel Background (speedGateSingle gatedOpts Background 0 (Body resp)) in
  get slowWorld = Some resp
  ∧ downloadCtx = Some (5 * second, SpeedGateFired)
  ∧ ctxDone downloadCtx (10 * second) = true
  ∧ (downloadSingle slowWorld Background "/snapshots/s.tmp" gatedOpts ∅).2
    = (100, 10 * second, None).
Proof. done. Qed.

(** The identity monitor cancels after 5 ns while the third read is
    awaited; the gate is off. *)
Definition round1 : Transfer :=
  {| at_ := 3; count := 10; readErr := readOk; writeFails := false |}.
Definition round2 : Transfer :=
  {| at_ := 6; count := 20; readErr := readOk; writeFails := false |}.
Definition round3 : Transfer :=
  {| at_ := 9; count := 30; readErr := readEOF; writeFails := false |}.

Definition monitoredResponse : GetResponse :=
  {| StatusCode := 200; Body := [round1; round2; round3] |}.

Definition monitoredWorld : World :=
  {| t0 := 0; urlInvalid := false;
     head := Some {| ContentLength := 60; AcceptRanges := "" |};
     get := Some monitoredResponse;
     getRange := λ _, None; openFails := λ _, false;
     createFails := false; truncateFails := false; renameFails := false |}.

Lemma downloadSingle_seen_cancel_witness :
  downloadSingle monitoredWorld (Some (5, IdentityBecameActive))
    "/snapshots/s.tmp" slowOpts ∅
  = ({[ "/snapshots/s.tmp" ]} ∪ ∅, (30, 6, Some (ErrSpeedBelowMin 30 6 0))).
Proof.
  apply (downloadSingle_seen_cancel monitoredWorld
           (Some (5, IdentityBecameActive)) "/snapshots/s.tmp" slowOpts ∅
           monitoredResponse [round1; round2] [round3]);
    try reflexivity.
  - repeat constructor.
  - simpl. auto.
Defined.

End downloader_facts.

Module hooks_facts.
Import hooks.

Section run.
Context {Machine : Type}.
Context (renderTemplate : string → TemplateData → option string).
Context (execute : string → list string → list string → bool →
                   Machine → Machine * bool).

#[local] Abbreviation runHook := (runHook renderTemplate execute).
#[local] Abbreviation RunHooks := (RunHooks renderTemplate execute).

(** Running the given hooks one after the other, unconditionally. *)
Fixpoint runEach (hs : list HookCommand) (data : TemplateData) (m : Machine)
    : Machine * Trace :=
  match hs with
  | [] => (m, [])
  | h :: rest =>
      let '(m1, outcome) := runHook h data m in
      let '(m2, trace) := runEach rest data m1 in
      (m2, (h, outcome) :: trace)
  end.

Definition enabled (h : HookCommand) : Prop := Disabled h = false.

#[local] Instance enabled_dec h : Decision (enabled h).
Proof. unfold enabled. apply _. Defined.

(** A failure that [RunHooks] passes over. *)
Definition tolerated (entry : HookCommand * option HookError) : Prop :=
  is_Some entry.2 → AllowFailure entry.1 = true.

(** C10.  [RunHooks] runs, in list order, exactly the enabled hooks of a
    prefix of the list.  Either it returns no error, the prefix is the
    whole list and every failure met was tolerated; or it returns the
    error of a hook that is enabled, failed and does not allow failure:
    that hook is the last one of the prefix and the last one run, every
    failure before it was tolerated, and nothing after it runs. *)
Theorem RunHooks_order (hooks : list HookCommand) (data : TemplateData)
    (m : Machine) :
  ∃ ran notReached,
    hooks = ran ++ notReached
    ∧ (RunHooks hooks data m).1 = runEach (filter enabled ran) data m
    ∧ Forall (λ entry, enabled entry.1) (RunHooks hooks data m).1.2
    ∧ ((RunHooks hooks data m).2 = None ∧ notReached = []
       ∧ Forall tolerated (RunHooks hooks data m).1.2
       ∨ ∃ before h cause earlier,
           (RunHooks hooks data m).2 = Some (ErrHookFailed (Name h) cause)
           ∧ ran = before ++ [h]
           ∧ enabled h ∧ AllowFailure h = false
           ∧ (RunHooks hooks data m).1.2 = earlier ++ [(h, Some cause)]
           ∧ Forall tolerated earlier).
Proof.
  revert m. induction hooks as [|hook rest IH]; intros m.
  - exists [], []. split; [done|]. split; [done|]. split; [constructor|].
    left. by repeat split.
  - cbn [hooks.RunHooks]. destruct (Disabled hook) eqn:Hdis.
    + destruct (IH m) as (ran & post & -> & Hrun & Hen & Hcase).
      exists (hook :: ran), post. split; [done|].
      rewrite filter_cons_False by (unfold enabled; congruence).
      split; [done|]. split; [done|].
      destruct Hcase as [?|(before & h & cause & earlier & ? & -> & ?)]; [by left|].
      right. by exists (hook :: before), h, cause, earlier.
    + destruct (runHook hook data m) as [m1 outcome] eqn:Hhook.
      assert (Hcont :
        ∀ m2 trace res, hooks.RunHooks renderTemplate execute rest data m1
                        = (m2, trace, res) →
          tolerated (hook, outcome) →
          ∃ ran notReached,
            hook :: rest = ran ++ notReached
            ∧ (m2, (hook, outcome) :: trace) = runEach (filter enabled ran) data m
            ∧ Forall (λ entry, enabled entry.1) ((hook, outcome) :: trace)
            ∧ (res = None ∧ notReached = []
               ∧ Forall tolerated ((hook, outcome) :: trace)
               ∨ ∃ before h cause earlier,
                   res = Some (ErrHookFailed (Name h) cause)
                   ∧ ran = before ++ [h]
                   ∧ enabled h ∧ AllowFailure h = false
                   ∧ (hook, outcome) :: trace = earlier ++ [(h, Some cause)]
                   ∧ Forall tolerated earlier)).
      { intros m2 trace res Hrest Htol.
        destruct (IH m1) as (ran & post & -> & Hrun & Hen & Hcase).
        rewrite Hrest in Hrun, Hen, Hcase. simpl in Hrun, Hen, Hcase.
        exists (hook :: ran), post. split; [done|].
        rewrite filter_cons_True by done. cbn [runEach].
        rewrite Hhook, <- Hrun. split; [done|].
        split; [by constructor|].
        destruct Hcase as [(-> & -> & Hall)|
                           (before & h & cause & earlier & -> & -> & ? & ? & -> & Hall)].
        - left. split; [done|]. split; [done|]. by constructor.
        - right. exists (hook :: before), h, cause, ((hook, outcome) :: earlier).
          repeat split; try done. by constructor. }
      destruct outcome as [e|].
      * destruct (AllowFailure hook) eqn:Hallow.
        -- destruct (hooks.RunHooks renderTemplate execute rest data m1)
             as [[m2 trace] res] eqn:Hrest.
           apply Hcont; [done|]. intros _. exact Hallow.
        -- exists [hook], rest. split; [done|].
           rewrite filter_cons_True by done. cbn [filter list_filter runEach].
           rewrite Hhook. simpl. split; [done|].
           split; [by repeat constructor|].
           right. exists [], hook, e, []. by repeat split.
      * destruct (hooks.RunHooks renderTemplate execute rest data m1)
          as [[m2 trace] res] eqn:Hrest.
        apply Hcont; [done|]. by intros [? [=]].
Qed.

End run.

End hooks_facts.

Module discovery_facts.
Import golang discovery.

(** *** The probe *)









(** *** Ordering of the results *)

Lemma StronglySorted_weaken {A} (R1 R2 : relation A) (l : list A) :
  (∀ a b, R1 a b → R2 a b) → StronglySorted R1 l → StronglySorted R2 l.
Proof.
  intros Himpl. induction 1 as [|a l Hs IH Hall]; constructor; [done|].
  eapply Forall_impl; [done|]. auto.
Qed.

Lemma nodeLess_StrictWeak order : StrictWeak (nodeLess order).
Proof.
  unfold nodeLess. destruct (String.eqb order "slot_age").
  - apply (sorters.StrictWeak_key_lt SlotAge).
  - apply (sorters.StrictWeak_key_lt Latency).
Qed.

(** C7, as the code has it.  Whatever [sort.Slice] does within its
    contract, [sortNodes] returns a permutation of its input, in
    non-decreasing [Latency] for the order ["latency"] and in
    non-decreasing [SlotAge] for the order ["slot_age"]. *)
Theorem sortNodes_sorted `{SliceSorter} (nodes : list SnapshotNode) :
  StronglySorted (λ a b, Latency a ≤ Latency b) (sortNodes nodes "latency")
  ∧ StronglySorted (λ a b, SlotAge a ≤ SlotAge b) (sortNodes nodes "slot_age")
  ∧ ∀ order, sortNodes nodes order ≡ₚ nodes.
Proof.
  split; [|split].
  - eapply StronglySorted_weaken;
      [|apply (sort_Slice_sorted _ (nodeLess "latency")), nodeLess_StrictWeak].
    intros a b. unfold notAfter, nodeLess. simpl. rewrite Z.ltb_ge. lia.
  - eapply StronglySorted_weaken;
      [|apply (sort_Slice_sorted _ (nodeLess "slot_age")), nodeLess_StrictWeak].
    intros a b. unfold notAfter, nodeLess. simpl. rewrite Z.ltb_ge. lia.
  - intros order. apply sort_Slice_perm.
Qed.

(** Nodes that compare equal keep their relative order: for each key
    value, the nodes carrying it appear in the output as in the input. *)
Definition keepsTies (key : SnapshotNode → Z) (input output : list SnapshotNode)
    : Prop :=
  ∀ v, filter (λ n, key n = v) output = filter (λ n, key n = v) input.

Definition nodeAt (name : string) (latency : Z) : SnapshotNode :=
  {| RPCURL := name; SnapshotURL := ""; Type_ := SnapshotTypeFull; Slot := 0;
     BaseSlot := 0; Filename := ""; Latency := latency; SlotAge := 0 |}.

(** Thirteen discovered nodes, in the order the probes appended them. *)
Definition thirteen : list SnapshotNode :=
  [ nodeAt "n00" 1; nodeAt "n01" 1; nodeAt "n02" 9; nodeAt "n03" 4;
    nodeAt "n04" 9; nodeAt "n05" 9; nodeAt "n06" 5; nodeAt "n07" 9;
    nodeAt "n08" 9; nodeAt "n09" 6; nodeAt "n10" 9; nodeAt "n11" 9;
    nodeAt "n12" 9 ].

(** C7 as stated fails on ties: a sorter within the contract of
    [sort.Slice] returns the nodes of latency 9 in another order than they
    were appended in. *)
Lemma sortNodes_ties_reordered :
  RPCURL <$> sortNodes (H := sorters.mergeSorter) thirteen "latency"
  = [ "n00"; "n01"; "n03"; "n06"; "n09"; "n12"; "n08"; "n10"; "n11"; "n02";
      "n04"; "n05"; "n07" ]
  ∧ ¬ keepsTies Latency thirteen
        (sortNodes (H := sorters.mergeSorter) thirteen "latency").
Proof.
  split; [by vm_compute|].
  intros Hkeep. specialize (Hkeep 9). vm_compute in Hkeep. done.
Qed.

End discovery_facts.

(** * Further properties of the code *)

(** ** File names: rendering and parsing *)

Module names_facts.
Import golang strconv.

Lemma chars_app (a b : string) : chars (a +:+ b) = chars a ++ chars b.
Proof. induction a as [|c a IH]; simpl; [done|]. by rewrite <- IH. Qed.

Lemma chars_of_list (l : list ascii) : chars (string_of_list_ascii l) = l.
Proof. apply list_ascii_of_string_of_list_ascii. Qed.

Lemma stripPrefix_app (p l : list ascii) : stripPrefix p (p ++ l) = Some l.
Proof.
  induction p as [|c p IH]; simpl; [by destruct l|]. by rewrite decide_True.
Qed.

Lemma stripPrefix_Some (p l r : list ascii) :
  stripPrefix p l = Some r → l = p ++ r.
Proof.
  revert l. induction p as [|c p IH]; intros l; simpl.
  - destruct l; by intros [= ->].
  - destruct l as [|d l]; [done|]. case_decide; [|done].
    intros ->%IH. by subst.
Qed.

Lemma span_app (p : ascii → bool) (a b : list ascii) :
  Forall (λ c, p c = true) a →
  match b with [] => True | c :: _ => p c = false end →
  span p (a ++ b) = (a, b).
Proof.
  intros Ha Hb. induction Ha as [|c a Hc Ha IH]; simpl.
  - destruct b as [|c b]; simpl in *; [done|]. by rewrite Hb.
  - by rewrite Hc, IH.
Qed.

Lemma span_eq (p : ascii → bool) (l a b : list ascii) :
  span p l = (a, b) → l = a ++ b.
Proof.
  revert a b. induction l as [|c l IH]; intros a b; simpl; [by intros [= <- <-]|].
  destruct (p c); [|by intros [= <- <-]].
  destruct (span p l) as [a' b'] eqn:Hs. intros [= <- <-].
  simpl. f_equal. by apply IH.
Qed.

Lemma plus_app (p : ascii → bool) (a b : list ascii) :
  a ≠ [] → Forall (λ c, p c = true) a →
  match b with [] => True | c :: _ => p c = false end →
  plus p (a ++ b) = Some (a, b).
Proof.
  intros Hne Ha Hb. unfold plus. rewrite span_app by done.
  by destruct a.
Qed.

(** *** Decimal digits *)

(** The number a digit string denotes, read from the left onto [n]. *)
Definition value (n : Z) (s : list ascii) : Z :=
  foldl (λ n c, n * 10 + (Z.of_nat (nat_of_ascii c) - 48)) n s.

Lemma digitChar_spec d :
  0 ≤ d < 10 →
  isDigit (digitChar d) = true ∧ Z.of_nat (nat_of_ascii (digitChar d)) - 48 = d.
Proof.
  intros Hd. unfold isDigit, digitChar.
  rewrite nat_ascii_embedding by lia. split; [|lia].
  apply andb_true_intro. split; apply Nat.leb_le; lia.
Qed.

Lemma value_ge n s :
  0 ≤ n → Forall (λ c, isDigit c = true) s → n ≤ value n s.
Proof.
  revert n. induction s as [|c s IH]; intros n Hn Hs; simpl; [done|].
  apply Forall_cons in Hs as [Hc Hs].
  unfold isDigit in Hc. apply andb_prop in Hc as [Hlo _]. apply Nat.leb_le in Hlo.
  etrans; [|apply IH; [lia|done]]. lia.
Qed.

(** On digits whose value fits, [ParseUint]'s loop computes the value. *)
Lemma parseUintLoop_value n s :
  0 ≤ n → Forall (λ c, isDigit c = true) s → value n s ≤ maxUint64 →
  parseUintLoop n s = value n s.
Proof.
  revert n. induction s as [|c s IH]; intros n Hn Hs Hfit; simpl; [done|].
  apply Forall_cons in Hs as [Hc Hs]. rewrite Hc. simpl.
  pose proof Hc as Hc'. unfold isDigit in Hc'.
  apply andb_prop in Hc' as [Hlo _]. apply Nat.leb_le in Hlo.
  simpl in Hfit.
  pose proof (value_ge (n * 10 + (Z.of_nat (nat_of_ascii c) - 48)) s
                ltac:(lia) Hs) as Hmono.
  assert (cutoff = 1844674407370955162) as Hcutoff by reflexivity.
  assert (maxUint64 = 18446744073709551615) as Hmax by reflexivity.
  assert (n < cutoff) as Hcut by lia.
  rewrite (proj2 (Z.leb_gt _ _) Hcut).
  rewrite (proj2 (Z.ltb_ge _ _)) by lia.
  apply IH; [lia|done|done].
Qed.

Lemma formatBits_acc rounds u acc :
  formatBits rounds u acc = formatBits rounds u [] ++ acc.
Proof.
  revert u acc. induction rounds as [|r IH]; intros u acc; simpl; [done|].
  destruct (u <? 10); [done|].
  rewrite IH, (IH _ [_]). by rewrite <- app_assoc.
Qed.

Lemma formatBits_digits rounds u :
  (0 < rounds)%nat → 0 ≤ u < 10 ^ Z.of_nat rounds →
  formatBits rounds u [] ≠ []
  ∧ Forall (λ c, isDigit c = true) (formatBits rounds u [])
  ∧ value 0 (formatBits rounds u []) = u.
Proof.
  revert u. induction rounds as [|r IH]; intros u Hr Hu; [lia|].
  cbn [formatBits].
  destruct (Z.ltb_spec u 10) as [Hsmall|Hbig].
  - destruct (digitChar_spec u ltac:(lia)) as [Hd Hv].
    split; [done|]. split; [by repeat constructor|]. simpl. lia.
  - rewrite formatBits_acc.
      assert (0 ≤ u / 10 < 10 ^ Z.of_nat r) as Hq.
      { split; [apply Z.div_pos; lia|].
        apply Z.div_lt_upper_bound; [lia|].
        rewrite Nat2Z.inj_succ, Z.pow_succ_r in Hu by lia. lia. }
      assert (0 < r)%nat as Hr'.
      { destruct r; [|lia]. simpl in Hq. assert (1 ≤ u / 10); [|lia].
        apply Z.div_le_lower_bound; lia. }
      destruct (IH _ Hr' Hq) as (Hne & Hall & Hval).
      destruct (digitChar_spec (u mod 10) ltac:(apply Z.mod_pos_bound; lia))
        as [Hd Hv].
      split; [by destruct (formatBits r (u / 10) [])|].
      split; [apply Forall_app; split; [done|by repeat constructor]|].
      unfold value in *. rewrite foldl_app, Hval. simpl. rewrite Hv.
      pose proof (Z.div_mod u 10 ltac:(lia)). lia.
Qed.

Lemma FormatUint_digits u :
  0 ≤ u ≤ maxUint64 →
  chars (FormatUint u) ≠ []
  ∧ Forall (λ c, isDigit c = true) (chars (FormatUint u))
  ∧ ParseUint (chars (FormatUint u)) = u.
Proof.
  intros Hu. unfold FormatUint. rewrite chars_of_list.
  destruct (formatBits_digits 20 u) as (Hne & Hall & Hval); [lia| |].
  { unfold maxUint64 in Hu. simpl. lia. }
  split; [done|]. split; [done|].
  unfold ParseUint. destruct (formatBits 20 u []) eqn:Hf; [done|].
  rewrite parseUintLoop_value; [done|lia|done|]. rewrite Hval. lia.
Qed.

(** *** The patterns on rendered names *)

Definition alnum (s : string) : Prop :=
  s ≠ "" ∧ Forall (λ c, isAlnum c = true) (chars s).

Definition isExt (ext : list ascii) : Prop :=
  ext = chars "zst" ∨ ext = chars "bz2" ∨ ext = chars "gz".

Lemma chars_nonempty (s : string) : s ≠ "" → chars s ≠ [].
Proof. by destruct s. Qed.

Lemma stripExt_ext ext rest : isExt ext → stripExt (ext ++ rest) = Some rest.
Proof. intros [-> | [-> | ->]]; done. Qed.

Lemma fullAt_rendered (ds hs ext rest : list ascii) :
  ds ≠ [] → Forall (λ c, isDigit c = true) ds →
  hs ≠ [] → Forall (λ c, isAlnum c = true) hs →
  isExt ext →
  fullAt (chars "snapshot-" ++ ds ++ chars "-" ++ hs ++ chars ".tar." ++ ext
          ++ rest)
  = Some (ds, rest).
Proof.
  intros Hds Hd Hhs Hh Hext. unfold fullAt.
  rewrite stripPrefix_app. cbn [mbind option_bind].
  rewrite (plus_app isDigit ds) by done. cbn [mbind option_bind].
  rewrite stripPrefix_app. cbn [mbind option_bind].
  rewrite (plus_app isAlnum hs) by done. cbn [mbind option_bind].
  rewrite stripPrefix_app. cbn [mbind option_bind].
  by rewrite stripExt_ext.
Qed.

Lemma incrementalAt_rendered (bs ds hs ext rest : list ascii) :
  bs ≠ [] → Forall (λ c, isDigit c = true) bs →
  ds ≠ [] → Forall (λ c, isDigit c = true) ds →
  hs ≠ [] → Forall (λ c, isAlnum c = true) hs →
  isExt ext →
  incrementalAt (chars "incremental-snapshot-" ++ bs ++ chars "-" ++ ds
                 ++ chars "-" ++ hs ++ chars ".tar." ++ ext ++ rest)
  = Some (bs, ds, rest).
Proof.
  intros Hbs Hb Hds Hd Hhs Hh Hext. unfold incrementalAt.
  rewrite stripPrefix_app. cbn [mbind option_bind].
  rewrite (plus_app isDigit bs) by done. cbn [mbind option_bind].
  rewrite stripPrefix_app. cbn [mbind option_bind].
  rewrite (plus_app isDigit ds) by done. cbn [mbind option_bind].
  rewrite stripPrefix_app. cbn [mbind option_bind].
  rewrite (plus_app isAlnum hs) by done. cbn [mbind option_bind].
  rewrite stripPrefix_app. cbn [mbind option_bind].
  by rewrite stripExt_ext.
Qed.

Lemma chars_fullFilename cfg :
  chars (mock.fullFilename cfg)
  = chars "snapshot-" ++ chars (FormatUint (mock.FullSlot cfg)) ++ chars "-"
    ++ chars (mock.FullHash cfg) ++ chars ".tar." ++ chars "zst" ++ [].
Proof.
  unfold mock.fullFilename. by rewrite !chars_app.
Qed.

Lemma chars_incFilename cfg :
  0 < mock.IncSlot cfg →
  chars (mock.incFilename cfg)
  = chars "incremental-snapshot-" ++ chars (FormatUint (mock.FullSlot cfg))
    ++ chars "-" ++ chars (FormatUint (mock.IncSlot cfg)) ++ chars "-"
    ++ chars (mock.IncHash cfg) ++ chars ".tar." ++ chars "zst" ++ [].
Proof.
  intros Hpos. unfold mock.incFilename.
  rewrite (proj2 (Z.gtb_lt _ _)) by lia.
  by rewrite !chars_app.
Qed.

End names_facts.

Module roundtrip_facts.
Import golang strconv names_facts.

Lemma lastSegmentFrom_plain sep cur l :
  Forall (λ c, c ≠ sep) l → lastSegmentFrom sep cur l = reverse cur ++ l.
Proof.
  revert cur. induction l as [|c l IH]; intros cur Hl; simpl.
  - by rewrite app_nil_r.
  - apply Forall_cons in Hl as [Hc Hl]. rewrite decide_False by done.
    rewrite IH by done. by rewrite reverse_cons, <- app_assoc.
Qed.

(** The last path segment of a slash followed by a name without slashes
    is the name. *)
Lemma lastSegment_rooted (name : string) :
  Forall (λ c, c ≠ "/"%char) (chars name) →
  lastSegment "/" ("/" +:+ name) = name.
Proof.
  intros Hname. unfold lastSegment.
  change (chars ("/" +:+ name)) with ("/"%char :: chars name).
  cbn [lastSegmentFrom]. rewrite decide_True by done.
  rewrite lastSegmentFrom_plain by done. simpl.
  apply string_of_list_ascii_of_string.
Qed.

Lemma isDigit_not_slash c : isDigit c = true → c ≠ "/"%char.
Proof. by intros Hc ->. Qed.

Lemma isAlnum_not_slash c : isAlnum c = true → c ≠ "/"%char.
Proof. by intros Hc ->. Qed.

Lemma fullFilename_plain cfg :
  0 ≤ mock.FullSlot cfg ≤ maxUint64 → alnum (mock.FullHash cfg) →
  Forall (λ c, c ≠ "/"%char) (chars (mock.fullFilename cfg)).
Proof.
  intros Hslot [_ Hhash]. rewrite chars_fullFilename.
  destruct (FormatUint_digits _ Hslot) as (_ & Hd & _).
  repeat (apply Forall_app; split);
    try (by repeat constructor);
    (eapply Forall_impl; [done|]); auto using isDigit_not_slash, isAlnum_not_slash.
Qed.

Lemma incFilename_plain cfg :
  0 ≤ mock.FullSlot cfg ≤ maxUint64 → 0 < mock.IncSlot cfg ≤ maxUint64 →
  alnum (mock.IncHash cfg) →
  Forall (λ c, c ≠ "/"%char) (chars (mock.incFilename cfg)).
Proof.
  intros Hbase Hslot [_ Hhash]. rewrite chars_incFilename by lia.
  destruct (FormatUint_digits (mock.FullSlot cfg) Hbase) as (_ & Hb & _).
  destruct (FormatUint_digits (mock.IncSlot cfg) ltac:(lia)) as (_ & Hd & _).
  repeat (apply Forall_app; split);
    try (by repeat constructor);
    (eapply Forall_impl; [done|]); auto using isDigit_not_slash, isAlnum_not_slash.
Qed.

(** The name of a full snapshot parses back to its slot. *)
Lemma parse_fullFilename cfg :
  0 ≤ mock.FullSlot cfg ≤ maxUint64 → alnum (mock.FullHash cfg) →
  discovery.parseSnapshotFilename (mock.fullFilename cfg)
    discovery.SnapshotTypeFull
  = inr {| discovery.RPCURL := ""; discovery.SnapshotURL := "";
           discovery.Type_ := discovery.SnapshotTypeFull;
           discovery.Slot := mock.FullSlot cfg; discovery.BaseSlot := 0;
           discovery.Filename := ""; discovery.Latency := 0;
           discovery.SlotAge := 0 |}.
Proof.
  intros Hslot [Hne Hhash].
  destruct (FormatUint_digits _ Hslot) as (Hdne & Hd & Hparse).
  unfold discovery.parseSnapshotFilename, discovery.fullSnapshotRe.
  rewrite chars_fullFilename.
  assert (∀ l, fullAt l = Some (chars (FormatUint (mock.FullSlot cfg)), []) →
               findFirst fullAt l
               = Some (chars (FormatUint (mock.FullSlot cfg)), [])) as Hfirst.
  { intros l Hl. destruct l; cbn [findFirst]; by rewrite Hl. }
  rewrite Hfirst.
  - simpl. by rewrite Hparse.
  - apply fullAt_rendered; auto using chars_nonempty. by left.
Qed.

Lemma parse_incFilename cfg :
  0 ≤ mock.FullSlot cfg ≤ maxUint64 → 0 < mock.IncSlot cfg ≤ maxUint64 →
  alnum (mock.IncHash cfg) →
  discovery.parseSnapshotFilename (mock.incFilename cfg)
    discovery.SnapshotTypeIncremental
  = inr {| discovery.RPCURL := ""; discovery.SnapshotURL := "";
           discovery.Type_ := discovery.SnapshotTypeIncremental;
           discovery.Slot := mock.IncSlot cfg;
           discovery.BaseSlot := mock.FullSlot cfg;
           discovery.Filename := ""; discovery.Latency := 0;
           discovery.SlotAge := 0 |}.
Proof.
  intros Hbase Hslot [Hne Hhash].
  destruct (FormatUint_digits _ Hbase) as (Hbne & Hb & Hpb).
  destruct (FormatUint_digits (mock.IncSlot cfg) ltac:(lia)) as (Hdne & Hd & Hpd).
  unfold discovery.parseSnapshotFilename, discovery.incrementalSnapshotRe.
  rewrite chars_incFilename by lia.
  assert (∀ l r, incrementalAt l = Some r → findFirst incrementalAt l = Some r)
    as Hfirst.
  { intros l r Hl. destruct l; cbn [findFirst]; by rewrite Hl. }
  rewrite (Hfirst _ (chars (FormatUint (mock.FullSlot cfg)),
                     chars (FormatUint (mock.IncSlot cfg)), [])).
  - cbn [fmap option_fmap option_map fst]. by rewrite Hpb, Hpd.
  - apply incrementalAt_rendered; auto using chars_nonempty. by left.
Qed.

Lemma gtb_false a b : a ≤ b → (a >? b) = false.
Proof. intros. rewrite Z.gtb_ltb. by apply Z.ltb_ge. Qed.

Lemma sub_uint64_le a b : 0 ≤ b ≤ a → a ≤ maxUint64 → sub_uint64 a b = a - b.
Proof. unfold sub_uint64, maxUint64. intros. apply Z.mod_small. lia. Qed.

Lemma age_filter_passes maxAge age :
  0 ≤ age → maxAge ≤ maxInt64 → maxAge ≤ 0 ∨ age ≤ maxAge →
  (maxAge >? 0) && (age >? to_uint64 maxAge) = false.
Proof.
  intros Hage Hmax Hok. destruct (Z.gtb_spec maxAge 0) as [Hpos|]; [|done].
  simpl. apply gtb_false. unfold to_uint64, maxInt64 in *.
  rewrite Z.mod_small by lia. lia.
Qed.

Section probing_the_mock.
Import discovery.

(** X1.  Probing the mock server for a full snapshot: when the configured
    slot is not beyond the tip, the hash is alphanumeric, the round trip is
    within [MaxLatency] and the age filter is off or satisfied, the probe
    accepts the node, with the configured slot read back from the file
    name the server rendered and the download URL built from it. *)
Theorem probeNode_mock_full (cfg : mock.SnapshotConfig) (addr endpoint : string)
    (tip latency : Z) (opts : Options) :
  0 ≤ mock.FullSlot cfg ≤ tip → tip ≤ maxUint64 →
  alnum (mock.FullHash cfg) →
  latency ≤ MaxLatency opts →
  MaxSnapshotAgeSlots opts ≤ maxInt64 →
  MaxSnapshotAgeSlots opts ≤ 0
  ∨ tip - mock.FullSlot cfg ≤ MaxSnapshotAgeSlots opts →
  probeNode {| newRequestFails := false;
               doResult := Some (mock.headSnapshot cfg);
               elapsed := latency |}
    addr endpoint tip SnapshotTypeFull opts
  = Suitable {| RPCURL := addr;
                SnapshotURL := addr +:+ "/" +:+ mock.fullFilename cfg;
                Type_ := SnapshotTypeFull;
                Slot := mock.FullSlot cfg; BaseSlot := 0;
                Filename := mock.fullFilename cfg;
                Latency := latency;
                SlotAge := tip - mock.FullSlot cfg |}.
Proof.
  intros Hslot Htip Hhash Hlat Hmax Hage.
  unfold probeNode. cbn [newRequestFails doResult elapsed].
  rewrite gtb_false by lia.
  unfold snapshotFilenameOf, mock.headSnapshot. cbn [StatusCode Location].
  change (String.eqb ("/" +:+ mock.fullFilename cfg) "") with false.
  cbn [Z.eqb Pos.eqb orb].
  rewrite lastSegment_rooted by (apply fullFilename_plain; [lia|done]).
  rewrite parse_fullFilename by first [lia|done]. cbn [Slot Type_ BaseSlot].
  rewrite gtb_false by lia.
  rewrite (sub_uint64_le tip (mock.FullSlot cfg)) by lia.
  rewrite age_filter_passes by first [lia|done]. done.
Qed.

(** X2.  The same for the incremental snapshot: the base slot and the
    slot are both read back from the rendered name. *)
Theorem probeNode_mock_incremental (cfg : mock.SnapshotConfig)
    (addr endpoint : string) (tip latency : Z) (opts : Options) :
  0 ≤ mock.FullSlot cfg ≤ maxUint64 →
  0 < mock.IncSlot cfg ≤ tip → tip ≤ maxUint64 →
  alnum (mock.IncHash cfg) →
  latency ≤ MaxLatency opts →
  MaxSnapshotAgeSlots opts ≤ maxInt64 →
  MaxSnapshotAgeSlots opts ≤ 0
  ∨ tip - mock.IncSlot cfg ≤ MaxSnapshotAgeSlots opts →
  probeNode {| newRequestFails := false;
               doResult := Some (mock.headIncremental cfg);
               elapsed := latency |}
    addr endpoint tip SnapshotTypeIncremental opts
  = Suitable {| RPCURL := addr;
                SnapshotURL := addr +:+ "/" +:+ mock.incFilename cfg;
                Type_ := SnapshotTypeIncremental;
                Slot := mock.IncSlot cfg; BaseSlot := mock.FullSlot cfg;
                Filename := mock.incFilename cfg;
                Latency := latency;
                SlotAge := tip - mock.IncSlot cfg |}.
Proof.
  intros Hbase Hslot Htip Hhash Hlat Hmax Hage.
  assert (String.eqb (mock.incFilename cfg) "" = false) as Hnamed.
  { unfold mock.incFilename. by rewrite (proj2 (Z.gtb_lt _ _)) by lia. }
  unfold probeNode. cbn [newRequestFails doResult elapsed].
  rewrite gtb_false by lia.
  unfold snapshotFilenameOf, mock.headIncremental. rewrite Hnamed.
  cbn [StatusCode Location].
  change (String.eqb ("/" +:+ mock.incFilename cfg) "") with false.
  cbn [Z.eqb Pos.eqb orb].
  rewrite lastSegment_rooted by (apply incFilename_plain; [done|lia|done]).
  rewrite parse_incFilename by first [lia|done]. cbn [Slot Type_ BaseSlot].
  rewrite gtb_false by lia.
  rewrite (sub_uint64_le tip (mock.IncSlot cfg)) by lia.
  rewrite age_filter_passes by first [lia|done]. done.
Qed.

End probing_the_mock.

Definition mockConfig : mock.SnapshotConfig :=
  {| mock.FullSlot := 100000; mock.FullHash := "HashFull"; mock.FullSizeMB := 10;
     mock.IncSlot := 100500; mock.IncHash := "HashInc"; mock.IncSizeMB := 2 |}.

Definition mockOpts : discovery.Options :=
  {| discovery.MaxLatency := 100; discovery.MaxSnapshotAgeSlots := 1300;
     discovery.ProbeConcurrency := 500; discovery.SortOrder := "latency";
     discovery.MinSuitable := 3 |}.

Lemma alnum_HashFull : alnum "HashFull".
Proof. split; [done|]. by repeat constructor. Defined.

Lemma alnum_HashInc : alnum "HashInc".
Proof. split; [done|]. by repeat constructor. Defined.

Lemma probeNode_mock_full_witness :
  discovery.probeNode
    {| discovery.newRequestFails := false;
       discovery.doResult := Some (mock.headSnapshot mockConfig);
       discovery.elapsed := 20 |}
    "http://127.0.0.1:8899" "/snapshot.tar.bz2" 100600
    discovery.SnapshotTypeFull mockOpts
  = discovery.Suitable
      {| discovery.RPCURL := "http://127.0.0.1:8899";
         discovery.SnapshotURL :=
           "http://127.0.0.1:8899/snapshot-100000-HashFull.tar.zst";
         discovery.Type_ := discovery.SnapshotTypeFull;
         discovery.Slot := 100000; discovery.BaseSlot := 0;
         discovery.Filename := "snapshot-100000-HashFull.tar.zst";
         discovery.Latency := 20; discovery.SlotAge := 600 |}.
Proof.
  apply (probeNode_mock_full mockConfig "http://127.0.0.1:8899"
           "/snapshot.tar.bz2" 100600 20 mockOpts).
  - simpl; lia.
  - by vm_compute.
  - exact alnum_HashFull.
  - simpl; lia.
  - by vm_compute.
  - right. simpl; lia.
Defined.

Lemma probeNode_mock_incremental_witness :
  discovery.probeNode
    {| discovery.newRequestFails := false;
       discovery.doResult := Some (mock.headIncremental mockConfig);
       discovery.elapsed := 20 |}
    "http://127.0.0.1:8899" "/incremental-snapshot.tar.bz2" 100600
    discovery.SnapshotTypeIncremental mockOpts
  = discovery.Suitable
      {| discovery.RPCURL := "http://127.0.0.1:8899";
         discovery.SnapshotURL :=
           "http://127.0.0.1:8899/incremental-snapshot-100000-100500-HashInc.tar.zst";
         discovery.Type_ := discovery.SnapshotTypeIncremental;
         discovery.Slot := 100500; discovery.BaseSlot := 100000;
         discovery.Filename :=
           "incremental-snapshot-100000-100500-HashInc.tar.zst";
         discovery.Latency := 20; discovery.SlotAge := 100 |}.
Proof.
  apply (probeNode_mock_incremental mockConfig "http://127.0.0.1:8899"
           "/incremental-snapshot.tar.bz2" 100600 20 mockOpts).
  all: first [exact alnum_HashInc | by vm_compute | (simpl; lia)
             | (right; simpl; lia)].
Defined.

End roundtrip_facts.

(** ** The inventory and the pruner agree on what a snapshot is *)

Module inventory_facts.
Import golang pruner names_facts pruner_facts.

Lemma stripExt_Some l rest :
  stripExt l = Some rest → ∃ ext, isExt ext ∧ l = ext ++ rest.
Proof.
  unfold stripExt, isExt.
  destruct (stripPrefix (chars "zst") l) eqn:H1.
  { intros [= ->]. apply stripPrefix_Some in H1. eauto. }
  destruct (stripPrefix (chars "bz2") l) eqn:H2.
  { intros [= ->]. apply stripPrefix_Some in H2. eauto. }
  intros H3%stripPrefix_Some. eauto.
Qed.

Lemma fullAt_Some l slot rest :
  fullAt l = Some (slot, rest) → ∃ pre ext, isExt ext ∧ l = pre ++ ext ++ rest.
Proof.
  unfold fullAt, plus. intros Hl.
  destruct (stripPrefix (chars "snapshot-") l) as [r1|] eqn:H1; [|done].
  cbn [mbind option_bind] in Hl.
  destruct (span isDigit r1) as [ds r2] eqn:H2. destruct ds as [|d ds]; [done|].
  cbn [mbind option_bind] in Hl.
  destruct (stripPrefix (chars "-") r2) as [r3|] eqn:H3; [|done].
  cbn [mbind option_bind] in Hl.
  destruct (span isAlnum r3) as [hs r4] eqn:H4. destruct hs as [|h hs]; [done|].
  cbn [mbind option_bind] in Hl.
  destruct (stripPrefix (chars ".tar.") r4) as [r5|] eqn:H5; [|done].
  cbn [mbind option_bind] in Hl.
  destruct (stripExt r5) as [r6|] eqn:H6; [|done].
  cbn [mbind option_bind] in Hl. simplify_eq.
  apply stripPrefix_Some in H1, H3, H5. apply span_eq in H2, H4.
  apply stripExt_Some in H6 as (ext & Hext & ->). subst.
  eexists _, ext. split; [done|]. by rewrite !app_assoc.
Qed.

Lemma incrementalAt_Some l base slot rest :
  incrementalAt l = Some (base, slot, rest) →
  ∃ pre ext, isExt ext ∧ l = pre ++ ext ++ rest.
Proof.
  unfold incrementalAt, plus. intros Hl.
  destruct (stripPrefix (chars "incremental-snapshot-") l) as [r1|] eqn:H1;
    [|done].
  cbn [mbind option_bind] in Hl.
  destruct (span isDigit r1) as [bs r2] eqn:H2. destruct bs as [|b bs]; [done|].
  cbn [mbind option_bind] in Hl.
  destruct (stripPrefix (chars "-") r2) as [r3|] eqn:H3; [|done].
  cbn [mbind option_bind] in Hl.
  destruct (span isDigit r3) as [ds r4] eqn:H4. destruct ds as [|d ds]; [done|].
  cbn [mbind option_bind] in Hl.
  destruct (stripPrefix (chars "-") r4) as [r5|] eqn:H5; [|done].
  cbn [mbind option_bind] in Hl.
  destruct (span isAlnum r5) as [hs r6] eqn:H6. destruct hs as [|h hs]; [done|].
  cbn [mbind option_bind] in Hl.
  destruct (stripPrefix (chars ".tar.") r6) as [r7|] eqn:H7; [|done].
  cbn [mbind option_bind] in Hl.
  destruct (stripExt r7) as [r8|] eqn:H8; [|done].
  cbn [mbind option_bind] in Hl. simplify_eq.
  apply stripPrefix_Some in H1, H3, H5, H7. apply span_eq in H2, H4, H6.
  apply stripExt_Some in H8 as (ext & Hext & ->). subst.
  eexists _, ext. split; [done|]. by rewrite !app_assoc.
Qed.

(** A name that ends in an extension of the snapshot patterns does not
    end in a temp suffix. *)
Lemma ext_not_temp (pre ext : list ascii) (name : string) :
  isExt ext → chars name = pre ++ ext ++ [] → tempFileRe name = false.
Proof.
  intros Hext Hname. unfold tempFileRe. rewrite Hname, app_nil_r.
  apply orb_false_intro; apply bool_decide_eq_false; intros [k Hk];
    apply (f_equal last) in Hk; rewrite !last_app in Hk;
    destruct Hext as [-> | [-> | ->]]; done.
Qed.

Lemma full_not_temp name slot :
  fullSnapshotRe name = Some slot → tempFileRe name = false.
Proof.
  unfold fullSnapshotRe.
  destruct (fullAt (chars name)) as [[s [|c r]]|] eqn:Hf; [|done..].
  intros _. apply fullAt_Some in Hf as (pre & ext & Hext & Hname).
  by eapply ext_not_temp.
Qed.

Lemma incremental_not_temp name r :
  incrementalSnapshotRe name = Some r → tempFileRe name = false.
Proof.
  unfold incrementalSnapshotRe.
  destruct (incrementalAt (chars name)) as [[[b s] [|c l]]|] eqn:Hf; [|done..].
  intros _. apply incrementalAt_Some in Hf as (pre & ext & Hext & Hname).
  by eapply ext_not_temp.
Qed.

Lemma localSnapshot_classify e f :
  localSnapshot e = Some f ↔ classify e = Full f ∨ classify e = Incremental f.
Proof.
  unfold localSnapshot, classify. destruct (IsDir e); [naive_solver|].
  destruct (fullSnapshotRe (Name e)) as [slot|] eqn:Hfull.
  { rewrite (full_not_temp _ _ Hfull). naive_solver. }
  destruct (incrementalSnapshotRe (Name e)) as [[base slot]|] eqn:Hinc.
  { rewrite (incremental_not_temp _ _ Hinc). naive_solver. }
  destruct (tempFileRe (Name e)); naive_solver.
Qed.

(** X3.  What [GetLocalSnapshots] lists is exactly what [Prune] takes for
    full or incremental snapshots; a file whose name ends in [.tmp] or
    [.partial] is never part of the inventory. *)
Theorem GetLocalSnapshots_agrees (d : Dir) :
  match GetLocalSnapshots d with
  | None => readable d = false
  | Some snaps =>
      readable d = true
      ∧ (∀ f, f ∈ snaps ↔ f ∈ fulls (entries d) ∨ f ∈ incrementals (entries d))
      ∧ (∀ e, e ∈ entries d → tempFileRe (Name e) = true →
           ∀ f, f ∈ snaps → Path f ≠ Name e)
  end.
Proof.
  unfold GetLocalSnapshots, ReadDir. destruct (readable d); [|done].
  split; [done|]. split.
  - intros f. rewrite list_elem_of_omap, elem_of_fulls, elem_of_incrementals.
    setoid_rewrite localSnapshot_classify. naive_solver.
  - intros e He Htmp f (e' & He' & Hf)%list_elem_of_omap Hpath.
    apply localSnapshot_classify in Hf.
    assert (Path f = Name e' ∧ tempFileRe (Name e') = false) as [Hn Hnt].
    { destruct Hf as [Hf|Hf];
        [apply classify_Full_inv in Hf|apply classify_Incremental_inv in Hf];
        naive_solver. }
    congruence.
Qed.

End inventory_facts.

(** ** Discovery, continued *)

Module probing_facts.
Import golang gostrings pruner discovery probing.

Lemma findFirst_head {A} (at_ : list ascii → option A) l r :
  at_ l = Some r → findFirst at_ l = Some r.
Proof. intros Hl. destruct l; cbn [findFirst]; by rewrite Hl. Qed.

Definition typeOf (f : SnapshotFile) : SnapshotType :=
  if IsFull f then SnapshotTypeFull else SnapshotTypeIncremental.

(** X4.  The two packages read file names alike: a directory entry the
    inventory takes for a snapshot is parsed by the discovery package, asked
    for the same kind, to the same slot and base slot. *)
Theorem localSnapshot_parse (e : DirEntry) (f : SnapshotFile) :
  localSnapshot e = Some f →
  parseSnapshotFilename (Name e) (typeOf f)
  = inr {| RPCURL := ""; SnapshotURL := ""; Type_ := typeOf f;
           Slot := pruner.Slot f; BaseSlot := pruner.BaseSlot f;
           Filename := ""; Latency := 0; SlotAge := 0 |}.
Proof.
  unfold localSnapshot. destruct (IsDir e); [done|].
  unfold pruner.fullSnapshotRe, pruner.incrementalSnapshotRe.
  destruct (fullAt (chars (Name e))) as [[slot [|c r]]|] eqn:Hfull.
  - intros [= <-]. unfold typeOf, parseSnapshotFilename, fullSnapshotRe.
    cbn [IsFull]. by rewrite (findFirst_head _ _ _ Hfull).
  - destruct (incrementalAt (chars (Name e))) as [[[base s] [|c' r']]|] eqn:Hinc;
      [|done..].
    intros [= <-]. unfold typeOf, parseSnapshotFilename, incrementalSnapshotRe.
    cbn [IsFull]. by rewrite (findFirst_head _ _ _ Hinc).
  - destruct (incrementalAt (chars (Name e))) as [[[base s] [|c' r']]|] eqn:Hinc;
      [|done..].
    intros [= <-]. unfold typeOf, parseSnapshotFilename, incrementalSnapshotRe.
    cbn [IsFull]. by rewrite (findFirst_head _ _ _ Hinc).
Qed.

Lemma localSnapshot_parse_witness :
  parseSnapshotFilename "incremental-snapshot-100-250-Hx.tar.zst"
    SnapshotTypeIncremental
  = inr {| RPCURL := ""; SnapshotURL := "";
           Type_ := SnapshotTypeIncremental; Slot := 250; BaseSlot := 100;
           Filename := ""; Latency := 0; SlotAge := 0 |}.
Proof.
  apply (localSnapshot_parse
           {| Name := "incremental-snapshot-100-250-Hx.tar.zst";
              IsDir := false |}
           {| pruner.Path := "incremental-snapshot-100-250-Hx.tar.zst";
              pruner.Slot := 250; pruner.BaseSlot := 100;
              pruner.IsFull := false |}).
  by vm_compute.
Defined.

(** X5.  A node that answers the probe with 200 is never a candidate: the
    file name is then taken from the probed endpoint, which carries no slot,
    so the probe ends as a parse failure. *)
Theorem probeNode_status_200 (x : Exchange) (resp : Response)
    (addr : string) (currentSlot : Z) (snapshotType : SnapshotType)
    (opts : Options) :
  newRequestFails x = false →
  doResult x = Some resp →
  StatusCode resp = 200 →
  elapsed x ≤ MaxLatency opts →
  probeNode x addr (endpointFor snapshotType) currentSlot snapshotType opts
  = Rejected
      {| reason := rejectParseFail;
         err := match snapshotType with
                | SnapshotTypeFull => msgNoFullMatch "snapshot.tar.bz2"
                | SnapshotTypeIncremental =>
                    msgNoIncrementalMatch "incremental-snapshot.tar.bz2"
                end;
         discovery.statusCode := 0; slotAge := 0 |}.
Proof.
  intros Hreq Hdo Hcode Hlat. unfold probeNode. rewrite Hreq, Hdo.
  replace (elapsed x >? MaxLatency opts) with false by (symmetry; lia).
  unfold snapshotFilenameOf. rewrite Hcode. cbn [Z.eqb Pos.eqb orb].
  by destruct snapshotType; vm_compute.
Qed.

Lemma probeNode_status_200_witness :
  probeNode {| newRequestFails := false;
               doResult := Some {| StatusCode := 200; Location := "" |};
               elapsed := 5 |}
    "http://10.0.0.1:8899" (endpointFor SnapshotTypeFull) 1000
    SnapshotTypeFull
    {| MaxLatency := 100; MaxSnapshotAgeSlots := 1300; ProbeConcurrency := 500;
       SortOrder := "latency"; MinSuitable := 3 |}
  = Rejected {| reason := rejectParseFail;
                err := msgNoFullMatch "snapshot.tar.bz2";
                discovery.statusCode := 0; slotAge := 0 |}.
Proof.
  apply (probeNode_status_200 _ {| StatusCode := 200; Location := "" |});
    first [done | (simpl; lia)].
Defined.

(** *** Addresses *)

Lemma Contains_scheme_added (addr : string) :
  Contains ("http://" +:+ addr) "://" = true.
Proof. done. Qed.

Definition normalised (addr : string) : string :=
  if Contains addr "://" then addr else "http://" +:+ addr.

Lemma normalised_scheme addr : Contains (normalised addr) "://" = true.
Proof.
  unfold normalised. destruct (Contains addr "://") eqn:Hc; [done|].
  apply Contains_scheme_added.
Qed.

(** X6.  Every address handed to the probes names a scheme; an address
    that already has one is passed on unchanged, the others get [http://]
    in front; nodes without an RPC address, or with an empty one,
    contribute nothing, and the order of the nodes is kept. *)
Theorem extractRPCAddresses_spec (nodes : list ClusterNode) :
  Forall (λ a, Contains a "://" = true) (extractRPCAddresses nodes)
  ∧ extractRPCAddresses nodes
    = normalised <$> filter (λ a, a ≠ "") (omap RPC nodes).
Proof.
  split.
  - unfold extractRPCAddresses. apply Forall_forall. intros a Ha.
    apply list_elem_of_omap in Ha as (n & _ & Hn).
    destruct (RPC n) as [addr|]; [|done].
    destruct (String.eqb addr ""); [done|].
    destruct (Contains addr "://") eqn:Hc; simplify_eq/=; [done|].
    apply Contains_scheme_added.
  - induction nodes as [|n nodes IH]; [done|].
    unfold extractRPCAddresses in *. cbn [omap list_omap].
    destruct (RPC n) as [addr|] eqn:Hrpc; [|done].
    destruct (String.eqb_spec addr "") as [->|Hne].
    + rewrite filter_cons_False by naive_solver. done.
    + rewrite filter_cons_True by done. rewrite fmap_cons, <- IH.
      unfold normalised. by destruct (Contains addr "://").
Qed.

End probing_facts.

(** ** The rejection counters *)

Module counters_facts.
Import golang discovery probing.

Definition counted (r : rejectionCounters) : Z :=
  httpError r + latency r + probing.statusCode r + parseFail r + tooOld r.

Definition codesTotal (m : gmap Z Z) : Z :=
  map_fold (λ _ v acc, v + acc) 0 m.

(** The ages of the too-old rejections among [errs], in order. *)
Definition ages (errs : list error) : list Z :=
  omap (λ e, match e with
             | aProbeError pe =>
                 match reason pe with
                 | rejectTooOld => Some (slotAge pe)
                 | _ => None
                 end
             | otherError => None
             end) errs.

Lemma add_one (n : Z) : 0 ≤ n < maxInt64 → add_int64 n 1 = n + 1.
Proof.
  intros Hn. unfold add_int64, wrap_int64.
  assert (maxInt64 = 2 ^ 63 - 1) as Hmax by done.
  rewrite Z.mod_small by lia. lia.
Qed.

Lemma codesTotal_insert_fresh (m : gmap Z Z) k v :
  m !! k = None → codesTotal (<[k := v]> m) = v + codesTotal m.
Proof.
  intros Hk. unfold codesTotal.
  rewrite map_fold_insert_L; [done| |done]. intros. lia.
Qed.

Lemma codesTotal_insert (m : gmap Z Z) k v :
  codesTotal (<[k := v]> m) = v + codesTotal m - default 0 (m !! k).
Proof.
  destruct (m !! k) as [old|] eqn:Hk; simpl.
  - rewrite <- (insert_delete_id m k old) at 2 by done.
    rewrite <- (insert_delete_eq m k v).
    rewrite !codesTotal_insert_fresh by apply lookup_delete_eq. lia.
  - rewrite codesTotal_insert_fresh by done. lia.
Qed.

Record sound (r : rejectionCounters) (n : Z) : Prop := {
  sound_http : 0 ≤ httpError r;
  sound_latency : 0 ≤ latency r;
  sound_status : 0 ≤ probing.statusCode r;
  sound_parse : 0 ≤ parseFail r;
  sound_old : 0 ≤ tooOld r;
  sound_counted : counted r = n;
  sound_codes : codesTotal (statusCodes r) = probing.statusCode r;
  sound_each :
    map_Forall (λ _ v, 0 < v ≤ probing.statusCode r) (statusCodes r)
}.

Lemma sound_new : sound newCounters 0.
Proof. by split. Qed.

Lemma record_sound r n e :
  sound r n → n < maxInt64 → sound (record r e) (n + 1).
Proof.
  intros [H1 H2 H3 H4 H5 Hn Hc He] Hmax. unfold counted in Hn.
  assert (∀ code,
    0 ≤ default 0 (statusCodes r !! code) ≤ probing.statusCode r) as Hv.
  { intros code. destruct (statusCodes r !! code) as [v|] eqn:Hcode; simpl;
      [|lia]. apply He in Hcode. simpl in Hcode. lia. }
  destruct e as [|pe]; [|destruct (reason pe) eqn:Hreason];
    unfold record; try rewrite Hreason.
  all: split; unfold counted;
    cbn [httpError latency probing.statusCode statusCodes parseFail tooOld].
  all: try rewrite !add_one
    by first [lia | (specialize (Hv (discovery.statusCode pe)); lia)].
  all: try lia; try done.
  - rewrite codesTotal_insert.
    specialize (Hv (discovery.statusCode pe)). lia.
  - specialize (Hv (discovery.statusCode pe)).
    apply map_Forall_insert_2; [lia|].
    eapply map_Forall_impl; [exact He|]. simpl. intros. lia.
Qed.

Lemma foldl_record_sound errs r n :
  sound r n → n + Z.of_nat (length errs) ≤ maxInt64 →
  sound (foldl record r errs) (n + Z.of_nat (length errs)).
Proof.
  revert r n. induction errs as [|e errs IH]; intros r n Hr Hlen.
  - simpl. by rewrite Z.add_0_r.
  - cbn [foldl length] in *.
    replace (n + Z.of_nat (S (length errs)))
      with ((n + 1) + Z.of_nat (length errs)) by lia.
    apply IH; [|lia]. apply record_sound; [done|lia].
Qed.

(** X7.  The counters account for every rejection exactly once: after any
    number of [record] calls on fresh counters the five reason counters add
    up to the number of calls, and the per-status-code counts add up to the
    status-code counter. *)
Theorem record_accounts (errs : list error) :
  Z.of_nat (length errs) ≤ maxInt64 →
  let r := foldl record newCounters errs in
  counted r = Z.of_nat (length errs)
  ∧ codesTotal (statusCodes r) = probing.statusCode r
  ∧ map_Forall (λ _ v, 0 < v) (statusCodes r).
Proof.
  intros Hlen r.
  destruct (foldl_record_sound errs newCounters 0 sound_new) as
    [_ _ _ _ _ Hn Hc He]; [lia|].
  split; [by rewrite Z.add_0_l in Hn|]. split; [done|].
  eapply map_Forall_impl; [exact He|]. simpl. intros. lia.
Qed.

Lemma record_accounts_witness :
  let r := foldl record newCounters
             [otherError;
              aProbeError {| reason := rejectStatusCode;
                             err := msgUnexpectedStatus 404;
                             discovery.statusCode := 404; slotAge := 0 |};
              aProbeError {| reason := rejectStatusCode;
                             err := msgUnexpectedStatus 404;
                             discovery.statusCode := 404; slotAge := 0 |}] in
  counted r = 3
  ∧ codesTotal (statusCodes r) = probing.statusCode r
  ∧ map_Forall (λ _ v, 0 < v) (statusCodes r).
Proof.
  apply (record_accounts
           [otherError;
            aProbeError {| reason := rejectStatusCode;
                           err := msgUnexpectedStatus 404;
                           discovery.statusCode := 404; slotAge := 0 |};
            aProbeError {| reason := rejectStatusCode;
                           err := msgUnexpectedStatus 404;
                           discovery.statusCode := 404; slotAge := 0 |}]).
  by vm_compute.
Defined.

(** *** The age range of the too-old rejections *)

Definition minStep (cur age : Z) : Z :=
  if negb (cur =? 0) && (cur <=? age) then cur else age.

Definition maxStep (cur age : Z) : Z := if cur >=? age then cur else age.

Lemma ages_snoc errs e : ages (errs ++ [e]) = ages errs ++ ages [e].
Proof. unfold ages. by rewrite omap_app. Qed.

Lemma foldl_record_ages errs r :
  tooOldMinAge (foldl record r errs) = foldl minStep (tooOldMinAge r) (ages errs)
  ∧ tooOldMaxAge (foldl record r errs)
    = foldl maxStep (tooOldMaxAge r) (ages errs).
Proof.
  revert r. induction errs as [|e errs IH]; intros r; [done|].
  cbn [foldl]. destruct (IH (record r e)) as [-> ->].
  destruct e as [|pe]; [done|].
  unfold ages, record. cbn [omap list_omap].
  by destruct (reason pe).
Qed.

(** Where the age list stands after some positive ages: nothing seen and
    both bounds 0, or both bounds among the ages and around all of them. *)
Definition bounds (l : list Z) (lo hi : Z) : Prop :=
  match l with
  | [] => lo = 0 ∧ hi = 0
  | _ => lo ∈ l ∧ hi ∈ l ∧ Forall (λ a, lo ≤ a ≤ hi) l
  end.

Lemma bounds_snoc l lo hi a :
  Forall (λ a, 0 < a) l → 0 < a → bounds l lo hi →
  bounds (l ++ [a]) (minStep lo a) (maxStep hi a).
Proof.
  intros Hpos Ha Hb. unfold minStep, maxStep.
  destruct l as [|b l].
  - destruct Hb as [-> ->]. simpl.
    replace (0 >=? a) with false by (symmetry; lia).
    split; [set_solver|]. split; [set_solver|]. repeat constructor; lia.
  - destruct Hb as (Hlo & Hhi & Hall).
    assert (0 < lo) as Hlo0.
    { rewrite Forall_forall in Hpos. by apply Hpos. }
    replace (lo =? 0) with false by (symmetry; lia). cbn [negb andb].
    change ((b :: l) ++ [a]) with (b :: (l ++ [a])). unfold bounds.
    destruct (Z.leb_spec lo a), (Z.geb_spec hi a).
    all: split; [set_solver|]; split; [set_solver|].
    all: rewrite app_comm_cons; apply Forall_app; split;
      [eapply Forall_impl; [exact Hall|]; simpl; intros; lia
      |repeat constructor; lia].
Qed.

Lemma foldl_bounds l :
  Forall (λ a, 0 < a) l → bounds l (foldl minStep 0 l) (foldl maxStep 0 l).
Proof.
  induction l as [|a l IH] using rev_ind; [done|].
  intros [Hl Ha]%Forall_app. rewrite !foldl_app. cbn [foldl].
  apply bounds_snoc; [done| |by apply IH]. by inversion Ha.
Qed.

(** X8.  As long as every too-old rejection carries a positive age, the
    two age marks of the counters are the smallest and the largest of those
    ages (both 0 when there was none). *)
Theorem record_age_range (errs : list error) :
  Forall (λ a, 0 < a) (ages errs) →
  let r := foldl record newCounters errs in
  match ages errs with
  | [] => tooOldMinAge r = 0 ∧ tooOldMaxAge r = 0
  | _ =>
      tooOldMinAge r ∈ ages errs ∧ tooOldMaxAge r ∈ ages errs
      ∧ Forall (λ a, tooOldMinAge r ≤ a ≤ tooOldMaxAge r) (ages errs)
  end.
Proof.
  intros Hpos r. subst r.
  destruct (foldl_record_ages errs newCounters) as [-> ->].
  exact (foldl_bounds _ Hpos).
Qed.

Definition tooOldAt (age : Z) : error :=
  aProbeError {| reason := rejectTooOld; err := msgSlotAgeExceeds age 1300;
                 discovery.statusCode := 0; slotAge := age |}.

Lemma record_age_range_witness :
  let r := foldl record newCounters [tooOldAt 5000; otherError; tooOldAt 2000] in
  tooOldMinAge r ∈ [5000; 2000] ∧ tooOldMaxAge r ∈ [5000; 2000]
  ∧ Forall (λ a, tooOldMinAge r ≤ a ≤ tooOldMaxAge r) [5000; 2000].
Proof.
  apply (record_age_range [tooOldAt 5000; otherError; tooOldAt 2000]).
  repeat constructor.
Defined.

(** Without the proviso the lower mark is not the smallest age: a rejection
    for a slot ahead of the tip is recorded with age 0 and restarts it. *)
Example record_age_restarts :
  tooOldMinAge (foldl record newCounters
                  [tooOldAt 2000; tooOldAt 0; tooOldAt 5000]) = 5000.
Proof. reflexivity. Qed.

End counters_facts.

(** ** Paired probes and candidate lists *)

Module paired_facts.
Import golang discovery probing names_facts roundtrip_facts.

(** What an accepted probe says about the node it returns. *)
Lemma probeNode_Suitable x addr endpoint currentSlot ty opts node :
  probeNode x addr endpoint currentSlot ty opts = Suitable node →
  RPCURL node = addr
  ∧ Type_ node = ty
  ∧ SnapshotURL node = addr +:+ "/" +:+ Filename node
  ∧ Latency node = elapsed x
  ∧ elapsed x ≤ MaxLatency opts
  ∧ Slot node ≤ currentSlot
  ∧ SlotAge node = sub_uint64 currentSlot (Slot node)
  ∧ (0 < MaxSnapshotAgeSlots opts →
     SlotAge node ≤ to_uint64 (MaxSnapshotAgeSlots opts)).
Proof.
  unfold probeNode. intros Hp.
  destruct (newRequestFails x); [done|].
  destruct (doResult x) as [resp|]; [|done].
  destruct (Z.gtb_spec (elapsed x) (MaxLatency opts)) as [|Hlat]; [done|].
  destruct (snapshotFilenameOf resp endpoint) as [|name]; [done|].
  destruct (parseSnapshotFilename name ty) as [|parsed] eqn:Hparse; [done|].
  destruct (Z.gtb_spec (Slot parsed) currentSlot) as [|Hslot]; [done|].
  assert (Type_ parsed = ty) as Hty.
  { unfold parseSnapshotFilename in Hparse.
    destruct ty; repeat case_match; by simplify_eq. }
  destruct (Z.gtb_spec (MaxSnapshotAgeSlots opts) 0) as [Hpos|Hoff];
    cbn [andb] in Hp.
  - destruct (Z.gtb_spec (sub_uint64 currentSlot (Slot parsed))
                (to_uint64 (MaxSnapshotAgeSlots opts))) as [|Hage]; [done|].
    injection Hp as <-. cbn. repeat split; auto.
  - injection Hp as <-. cbn. repeat split; auto. lia.
Qed.

(** X9.  A pair returned by [probePairedNode] is consistent: both halves
    come from the probed address, the incremental builds on the full
    snapshot of the pair, neither slot is beyond the tip, both round trips
    were within [MaxLatency], and only the incremental is held to the age
    limit. *)
Theorem probePairedNode_sound (xFull xIncr : Exchange) (addr : string)
    (currentSlot : Z) (opts : Options) (pair : PairedSnapshotNode) :
  probePairedNode xFull xIncr addr currentSlot opts = inr pair →
  RPCURL (Full pair) = addr ∧ RPCURL (Incremental pair) = addr
  ∧ Type_ (Full pair) = SnapshotTypeFull
  ∧ Type_ (Incremental pair) = SnapshotTypeIncremental
  ∧ BaseSlot (Incremental pair) = Slot (Full pair)
  ∧ Slot (Full pair) ≤ currentSlot ∧ Slot (Incremental pair) ≤ currentSlot
  ∧ Latency (Full pair) ≤ MaxLatency opts
  ∧ Latency (Incremental pair) ≤ MaxLatency opts
  ∧ (0 < MaxSnapshotAgeSlots opts →
     SlotAge (Incremental pair) ≤ to_uint64 (MaxSnapshotAgeSlots opts)).
Proof.
  unfold probePairedNode. intros Hp.
  destruct (probeNode xFull _ _ _ _ _) as [full| |] eqn:Hfull; [|done..].
  destruct (probeNode xIncr _ _ _ _ _) as [incr| |] eqn:Hincr; [|done..].
  destruct (Z.eqb_spec (BaseSlot incr) (Slot full)) as [Hbase|]; [|done].
  injection Hp as <-. cbn [Full Incremental].
  apply probeNode_Suitable in Hfull as (? & ? & _ & Hl1 & ? & ? & _ & _).
  apply probeNode_Suitable in Hincr as (? & ? & _ & Hl2 & ? & ? & _ & ?).
  cbn [MaxLatency withMaxSnapshotAgeSlots] in *.
  rewrite Hl1, Hl2. repeat split; auto.
Qed.

(** X10.  Paired probing of the mock server: whatever the age of its full
    snapshot, the pair is accepted as soon as the incremental is within the
    age limit (and both answers within [MaxLatency]). *)
Theorem probePairedNode_mock (cfg : mock.SnapshotConfig) (addr : string)
    (tip latFull latIncr : Z) (opts : Options) :
  0 ≤ mock.FullSlot cfg ≤ tip → 0 < mock.IncSlot cfg ≤ tip →
  tip ≤ maxUint64 →
  alnum (mock.FullHash cfg) → alnum (mock.IncHash cfg) →
  latFull ≤ MaxLatency opts → latIncr ≤ MaxLatency opts →
  MaxSnapshotAgeSlots opts ≤ maxInt64 →
  MaxSnapshotAgeSlots opts ≤ 0
  ∨ tip - mock.IncSlot cfg ≤ MaxSnapshotAgeSlots opts →
  probePairedNode
    {| newRequestFails := false; doResult := Some (mock.headSnapshot cfg);
       elapsed := latFull |}
    {| newRequestFails := false; doResult := Some (mock.headIncremental cfg);
       elapsed := latIncr |}
    addr tip opts
  = inr {| Full :=
             {| RPCURL := addr;
                SnapshotURL := addr +:+ "/" +:+ mock.fullFilename cfg;
                Type_ := SnapshotTypeFull;
                Slot := mock.FullSlot cfg; BaseSlot := 0;
                Filename := mock.fullFilename cfg;
                Latency := latFull; SlotAge := tip - mock.FullSlot cfg |};
           Incremental :=
             {| RPCURL := addr;
                SnapshotURL := addr +:+ "/" +:+ mock.incFilename cfg;
                Type_ := SnapshotTypeIncremental;
                Slot := mock.IncSlot cfg; BaseSlot := mock.FullSlot cfg;
                Filename := mock.incFilename cfg;
                Latency := latIncr; SlotAge := tip - mock.IncSlot cfg |} |}.
Proof.
  intros Hfull Hinc Htip Hh1 Hh2 Hl1 Hl2 Hmax Hage.
  assert (String.eqb (mock.incFilename cfg) "" = false) as Hnamed.
  { unfold mock.incFilename. by rewrite (proj2 (Z.gtb_lt _ _)) by lia. }
  unfold probePairedNode, probeNode.
  cbn [newRequestFails doResult elapsed MaxLatency MaxSnapshotAgeSlots
       withMaxSnapshotAgeSlots].
  rewrite !gtb_false by lia.
  unfold snapshotFilenameOf, mock.headSnapshot, mock.headIncremental.
  rewrite Hnamed. cbn [StatusCode Location].
  change (String.eqb ("/" +:+ mock.fullFilename cfg) "") with false.
  change (String.eqb ("/" +:+ mock.incFilename cfg) "") with false.
  cbn [Z.eqb Pos.eqb orb].
  rewrite lastSegment_rooted by (apply fullFilename_plain; [lia|done]).
  rewrite parse_fullFilename by first [lia|done]. cbn [Slot Type_ BaseSlot].
  rewrite gtb_false by lia.
  rewrite (sub_uint64_le tip (mock.FullSlot cfg)) by lia.
  cbn [Z.gtb Z.compare andb].
  rewrite lastSegment_rooted by (apply incFilename_plain; [lia|lia|done]).
  rewrite parse_incFilename by first [lia|done]. cbn [Slot Type_ BaseSlot].
  rewrite gtb_false by lia.
  rewrite (sub_uint64_le tip (mock.IncSlot cfg)) by lia.
  rewrite age_filter_passes by first [lia|done].
  cbn [BaseSlot Slot]. by rewrite Z.eqb_refl.
Qed.

End paired_facts.
